(** * StrCalc: the string calculator of strcalc.c

    A shallow embedding of the tokenizer, the two-token cursor, the AST, the
    printer, the recursive-descent parser and the evaluator of strcalc.c,
    followed by the properties of the program.

    Conventions of the embedding.
    - A [buffer_t] (a [str]/[len] pair in C) is the list of the [len] bytes
      found at [str].  Allocation is taken to succeed and lengths to fit
      [size_t]; every block of bytes is filled completely by the function that
      allocates it, so only the bytes written are kept.
    - [unsigned long] arithmetic is done in [Z] with the reduction modulo
      [2^w] written out, [w] being the width of [unsigned long].
    - The input [FILE *] is the list of bytes still to be read.
    - [malloc] returns a block whose contents are indeterminate.  The only
      field the program ever reads before writing it is the [type] of a
      node made by [ast_new_lit]; the value found there is an explicit
      argument, supplied by the [heap] component of the parser state.
    - [fatal] ends the run: functions that may call it return an [outcome]. *)

From Stdlib Require Import Strings.String Strings.Ascii Strings.Byte.
From Stdlib Require Import ZArith List Bool Lia.
Import ListNotations.
Local Open Scope Z_scope.

(** ** Characters and streams *)

Definition EOF : Z := -1.

(** The value [fgetc] returns for a byte: an [unsigned char] converted to
    [int]. *)
Definition int_of_char (b : byte) : Z := Z.of_N (Byte.to_N b).

(** Storing an [int] into a [char]. *)
Definition char_of_int (c : Z) : byte :=
  match Byte.of_N (Z.to_N (c mod 256)) with
  | Some b => b
  | None => x00
  end.

Definition isdigit (c : Z) : bool := (48 <=? c) && (c <=? 57).

Definition bytes (s : string) : list byte := list_byte_of_string s.

(** ** Buffers (strcalc.c, lines 13-16 and 85-136) *)

Definition buffer_t : Type := list byte.

Definition len (buf : buffer_t) : nat := length buf.

(** [memcpy(dst, src, n)] into a block under construction: the [n] bytes
    appended to what has been written so far. *)
Definition memcpy (src : list byte) (n : nat) : list byte := firstn n src.

Definition buf_new (s : list byte) (sz : nat) : buffer_t := memcpy s sz.

Definition buf_dup (buf : buffer_t) : buffer_t := memcpy buf (len buf).

Fixpoint buf_print (buf : buffer_t) : list byte :=
  match buf with
  | [] => []
  | c :: p => c :: buf_print p
  end.

Definition buf_concat (a b : buffer_t) : buffer_t :=
  memcpy a (len a) ++ memcpy b (len b).

(** The loop of [buf_repeat]: [todo] iterations remain, [res] holds the
    copies written so far (iteration [i] writes at offset [i * a.len], which
    is the length of [res]). *)
Fixpoint buf_repeat_loop (todo : nat) (a : buffer_t) (res : list byte)
  : list byte :=
  match todo with
  | O => res
  | S k => buf_repeat_loop k a (res ++ memcpy a (len a))
  end.

Definition buf_repeat (a : buffer_t) (reps : Z) : buffer_t :=
  buf_repeat_loop (Z.to_nat reps) a [].

(** Reduction of a mathematical integer to a [w]-bit unsigned one. *)
Definition wrap (w x : Z) : Z := x mod 2 ^ w.

(** [num = num * 10 + (buf.str[i] - '0')] in [unsigned long]: the product
    wraps, the [int] difference is converted to [unsigned long], the sum
    wraps. *)
Definition asulong_step (w : Z) (num : Z) (c : byte) : Z :=
  wrap w (wrap w (num * 10) + wrap w (int_of_char c - 48)).

Definition buf_asulong (w : Z) (buf : buffer_t) : Z :=
  fold_left (asulong_step w) buf 0.

(** ** Outcomes of a run *)

Inductive outcome (A : Type) : Type :=
| Ok (a : A)
| Fatal (msg : string)      (* fatal(...): diagnostic, exit(EXIT_FAILURE) *)
| Undefined                 (* the C program has no defined behaviour *)
| OutOfFuel.                (* the recursion bound of the model was reached *)

Arguments Ok {A} a.
Arguments Fatal {A} msg.
Arguments Undefined {A}.
Arguments OutOfFuel {A}.

Definition bind {A B : Type} (m : outcome A) (f : A -> outcome B)
  : outcome B :=
  match m with
  | Ok a => f a
  | Fatal msg => Fatal msg
  | Undefined => Undefined
  | OutOfFuel => OutOfFuel
  end.

Notation "x <- m ;; k" := (bind m (fun x => k))
  (at level 61, m at next level, right associativity).
Notation "' p <- m ;; k" := (bind m (fun p => k))
  (at level 61, p pattern, m at next level, right associativity).

(** ** Tokens and the tokenizer (lines 7-27 and 39-83) *)

Inductive toktype_t : Type := TOK_STR | TOK_OP | TOK_EOF.

Definition toktype_eqb (a b : toktype_t) : bool :=
  match a, b with
  | TOK_STR, TOK_STR | TOK_OP, TOK_OP | TOK_EOF, TOK_EOF => true
  | _, _ => false
  end.

(** A token keeps the fields of the C struct: [next_tok] writes the tag and
    the fields of the variant it produces and leaves the others as they
    were. *)
Record tok_t : Type := mk_tok {
  tok_type : toktype_t;
  tok_op : byte;
  tok_buf : buffer_t;
  tok_cap : Z
}.

Definition set_tok_type (tok : tok_t) (t : toktype_t) : tok_t :=
  mk_tok t (tok_op tok) (tok_buf tok) (tok_cap tok).

Definition set_tok_op (tok : tok_t) (c : byte) : tok_t :=
  mk_tok (tok_type tok) c (tok_buf tok) (tok_cap tok).

Definition set_tok_buf (tok : tok_t) (b : buffer_t) (cp : Z) : tok_t :=
  mk_tok (tok_type tok) (tok_op tok) b cp.

(** [err]: one line on the error stream. *)
Definition err_unrecognized (c : Z) : string :=
  ("Ignoring unrecognized character '"
     ++ String (ascii_of_byte (char_of_int c)) "' in input")%string.

Definition is_op_char (c : Z) : bool :=
  (c =? int_of_char "(") || (c =? int_of_char ")")
  || (c =? int_of_char ".") || (c =? int_of_char "^").

(** [' '], ['\t'], ['\b'], ['\v'], ['\r'], ['\n']. *)
Definition is_skipped_char (c : Z) : bool :=
  (c =? int_of_char " ") || (c =? int_of_char x09) || (c =? int_of_char x08)
  || (c =? int_of_char x0b) || (c =? int_of_char x0d)
  || (c =? int_of_char x0a).

(** The [while(isdigit(c = fgetc(in)))] loop followed by [ungetc(c, in)]:
    the digits read are appended to the buffer, whose capacity doubles when
    it is reached; the first character that is not a digit goes back to the
    stream ([ungetc] of [EOF] leaves the stream as it is). *)
Fixpoint read_digits (inp : list byte) (b : buffer_t) (cp : Z)
  : buffer_t * Z * list byte :=
  match inp with
  | [] => (b, cp, [])
  | ch :: rest =>
      let c := int_of_char ch in
      if isdigit c then
        let b' := b ++ [char_of_int c] in
        let cp' := if Z.of_nat (len b') >=? cp then Z.shiftl cp 1 else cp in
        read_digits rest b' cp'
      else (b, cp, char_of_int c :: rest)
  end.

(** How control leaves the body of the [switch] of [next_tok]. *)
Inductive flow : Type :=
| Return (rc : Z) (tok : tok_t) (inp : list byte)   (* return rc; *)
| GotoLoop                                          (* goto loop; *)
| Break.                                            (* to the end of the switch *)

(** The [switch] on a character [ch] read from the stream, [rest] being
    what follows it: how control leaves it and the lines sent to the error
    stream. *)
Definition next_tok_switch (tok : tok_t) (ch : byte) (rest : list byte)
  : flow * list string :=
  let c := int_of_char ch in
  if is_op_char c then
    (Return 0 (set_tok_op (set_tok_type tok TOK_OP) (char_of_int c)) rest, [])
  else if isdigit c then
    let '(b, cp, rest') := read_digits rest [char_of_int c] 8 in
    (Return 0 (set_tok_buf (set_tok_type tok TOK_STR) b cp) rest', [])
  else if is_skipped_char c then (GotoLoop, [])
  else (GotoLoop, [err_unrecognized c]).

(** [next_tok]: the return code, the token written through [tok], the rest
    of the stream and the lines sent to the error stream.  At the end of
    the stream [fgetc] gives [EOF], whose case returns.  Control that left
    the [switch] would reach the [err] and the [return 1] that follow
    it. *)
Fixpoint next_tok (tok : tok_t) (inp : list byte)
  : Z * tok_t * list byte * list string :=
  match inp with
  | [] => (0, set_tok_type tok TOK_EOF, [], [])
  | ch :: rest =>
      match next_tok_switch tok ch rest with
      | (Return rc tok' rest', errs) => (rc, tok', rest', errs)
      | (GotoLoop, errs) =>
          let '(rc, tok', rest', errs') := next_tok tok rest in
          (rc, tok', rest', errs ++ errs')
      | (Break, errs) =>
          (1, tok, rest,
           errs ++ ["Control fell off next_tok without a return"%string])
      end
  end.

(** [if(tok->type = TOK_STR)]: the tag is overwritten, and the value of the
    assignment, [TOK_STR] = 0, skips [buf_free]. *)
Definition tok_free (tok : tok_t) : tok_t := set_tok_type tok TOK_STR.

(** ** The two-token cursor (lines 142-173) *)

Record tokenizer_t : Type := mk_tz {
  tz_cur : tok_t;
  tz_next : tok_t;
  tz_in : list byte
}.

Definition tokenizer_init (tz : tokenizer_t) (inp : list byte)
  : Z * tokenizer_t * list string :=
  let '(rc1, c, in1, e1) := next_tok (tz_cur tz) inp in
  if negb (rc1 =? 0) then (1, mk_tz c (tz_next tz) in1, e1)
  else
    let '(rc2, n, in2, e2) := next_tok (tz_next tz) in1 in
    if negb (rc2 =? 0) then (1, mk_tz c n in2, e1 ++ e2)
    else (0, mk_tz c n in2, e1 ++ e2).

Definition tokenizer_cleanup (tz : tokenizer_t) : tokenizer_t :=
  mk_tz (tok_free (tz_cur tz)) (tok_free (tz_next tz)) (tz_in tz).

Definition tokenizer_peek (tz : tokenizer_t) : tok_t := tz_cur tz.

Definition tokenizer_peeknext (tz : tokenizer_t) : tok_t := tz_next tz.

Definition tokenizer_consume (tz : tokenizer_t)
  : Z * tokenizer_t * list string :=
  let tz1 := mk_tz (tok_free (tz_cur tz)) (tz_next tz) (tz_in tz) in
  let tz2 := mk_tz (tz_next tz1) (tz_next tz1) (tz_in tz1) in
  let '(rc, n, in', e) := next_tok (tz_next tz2) (tz_in tz2) in
  if negb (rc =? 0) then (1, mk_tz (tz_cur tz2) n in', e)
  else (0, mk_tz (tz_cur tz2) n in', e).

(** ** The AST (lines 175-218) *)

Definition EX_LIT : Z := 0.
Definition EX_CONCAT : Z := 1.
Definition EX_REPEAT : Z := 2.

(** A node is its [type] field and the member of the union that was
    written: a buffer, or the two children.  The tag is kept as the integer
    stored in the field, which need not agree with the member written. *)
Inductive ast_node : Type :=
| lit_node (type : Z) (buf : buffer_t)
| bin_node (type : Z) (left right : ast_node).

Definition node_type (node : ast_node) : Z :=
  match node with
  | lit_node t _ => t
  | bin_node t _ _ => t
  end.

(** [ast_new_lit] stores the copy of the buffer and returns; [res->type]
    keeps what the block handed out by [malloc] contained, [uninit]. *)
Definition ast_new_lit (uninit : Z) (buf : buffer_t) : ast_node :=
  lit_node uninit (buf_dup buf).

Definition ast_new_binop (type : Z) (left right : ast_node) : ast_node :=
  bin_node type left right.

(** [ast_free]: the [switch] has no [default], a node of another [type]
    is only released itself.  A node with the tag of an operator whose
    union holds a buffer sends the recursion through the bytes of the
    buffer. *)
Fixpoint ast_free (node : ast_node) : outcome unit :=
  let t := node_type node in
  if (t =? EX_CONCAT) || (t =? EX_REPEAT) then
    match node with
    | lit_node _ _ => Undefined
    | bin_node _ l r => _ <- ast_free l ;; _ <- ast_free r ;; Ok tt
    end
  else Ok tt.

(** ** The printer (lines 220-253) *)

(** The newline character, for the formats that end in one. *)
Definition nl : string := String "010" EmptyString.

(** [vprintf] for the formats of the program: text and [%c]. *)
Fixpoint vprintf (fmt : list byte) (va : list byte) : list byte :=
  match fmt with
  | [] => []
  | f :: rest =>
      match rest with
      | g :: rest' =>
          if Byte.eqb f "%" && Byte.eqb g "c" then
            match va with
            | a :: va' => a :: vprintf rest' va'
            | [] => vprintf rest' []
            end
          else f :: vprintf rest va
      | [] => [f]
      end
  end.

Definition printf (fmt : string) (va : list byte) : list byte :=
  vprintf (bytes fmt) va.

(** The [for] loop of [print_lev]: four calls of [putchar] per level. *)
Fixpoint print_lev_loop (todo : nat) : list byte :=
  match todo with
  | O => []
  | S k => "|"%byte :: " "%byte :: " "%byte :: " "%byte :: print_lev_loop k
  end.

Definition print_lev (lev : Z) (fmt : string) (va : list byte) : list byte :=
  print_lev_loop (Z.to_nat lev) ++ vprintf (bytes fmt) va.

(** Reading [node->buf], or the children, of a node whose union holds the
    other member has no defined behaviour. *)
Fixpoint ast_print_inner (node : ast_node) (lev : Z) : outcome (list byte) :=
  let t := node_type node in
  if t =? EX_LIT then
    match node with
    | lit_node _ buf =>
        Ok (print_lev lev "String literal:" [] ++ buf_print buf
              ++ printf nl [])
    | bin_node _ _ _ => Undefined
    end
  else if (t =? EX_CONCAT) || (t =? EX_REPEAT) then
    match node with
    | lit_node _ _ => Undefined
    | bin_node _ l r =>
        let o1 := print_lev lev ("Binop: %c" ++ nl)
                    [if t =? EX_CONCAT then "."%byte else "^"%byte] in
        let o2 := print_lev (lev + 1) ("Left:" ++ nl) [] in
        o3 <- ast_print_inner l (lev + 2) ;;
        let o4 := print_lev (lev + 1) ("Right:" ++ nl) [] in
        o5 <- ast_print_inner r (lev + 2) ;;
        Ok (o1 ++ o2 ++ o3 ++ o4 ++ o5)
    end
  else Ok (print_lev lev ("<Unknown node>" ++ nl) []).

Definition ast_print (node : ast_node) : outcome (list byte) :=
  ast_print_inner node 0.

(** ** The evaluator (lines 318-340) *)

Fixpoint eval (w : Z) (node : ast_node) : outcome buffer_t :=
  let t := node_type node in
  if t =? EX_LIT then
    match node with
    | lit_node _ buf => Ok (buf_dup buf)
    | bin_node _ _ _ => Undefined
    end
  else if (t =? EX_CONCAT) || (t =? EX_REPEAT) then
    match node with
    | lit_node _ _ => Undefined
    | bin_node _ l r =>
        vl <- eval w l ;;
        vr <- eval w r ;;
        Ok (if t =? EX_CONCAT then buf_concat vl vr
            else buf_repeat vl (buf_asulong w vr))
    end
  else Fatal "Attempt to evaluate unknown node".

(** ** The parser (lines 255-316) *)

(** What the parser works on: the cursor, the contents [heap k] of the
    [type] field of the [k]-th node block [malloc] hands out, the number
    [nalloc] of node blocks handed out so far, and the error stream. *)
Record state : Type := mk_state {
  tz : tokenizer_t;
  heap : nat -> Z;
  nalloc : nat;
  stderr : list string
}.

(** [tokenizer_consume(tz)] as the parser calls it. *)
Definition consume (st : state) : Z * state :=
  let '(rc, tz', errs) := tokenizer_consume (tz st) in
  (rc, mk_state tz' (heap st) (nalloc st) (stderr st ++ errs)).

(** [malloc(sizeof(ast_node))]: what the [type] field of the new block
    holds, and the state after the allocation. *)
Definition malloc_node (st : state) : Z * state :=
  (heap st (nalloc st),
   mk_state (tz st) (heap st) (S (nalloc st)) (stderr st)).

Definition is_op (tok : tok_t) (c : byte) : bool :=
  toktype_eqb (tok_type tok) TOK_OP && Byte.eqb (tok_op tok) c.

Definition new_lit (st : state) (buf : buffer_t) : ast_node * state :=
  let '(uninit, st') := malloc_node st in (ast_new_lit uninit buf, st').

Definition new_binop (st : state) (type : Z) (l r : ast_node)
  : ast_node * state :=
  let '(_, st') := malloc_node st in (ast_new_binop type l r, st').

Fixpoint parse_toplevel (fuel : nat) (st : state) {struct fuel}
  : outcome (ast_node * state) :=
  match fuel with
  | O => OutOfFuel
  | S fuel' =>
      let cur := tokenizer_peek (tz st) in
      match tok_type cur with
      | TOK_STR =>
          let '(rc, st1) := consume st in
          if negb (rc =? 0) then Fatal "Syntax error after literal"
          else Ok (new_lit st1 (tok_buf cur))
      | TOK_OP =>
          if Byte.eqb (tok_op cur) "(" then
            let '(rc, st1) := consume st in
            if negb (rc =? 0) then Fatal "Syntax error after open paren"
            else
              '(node, st2) <- parse fuel' st1 ;;
              let cur := tokenizer_peek (tz st2) in
              if negb (toktype_eqb (tok_type cur) TOK_OP)
                 || negb (Byte.eqb (tok_op cur) ")")
              then Fatal "Syntax error: expected close paren"
              else
                let '(rc, st3) := consume st2 in
                if negb (rc =? 0) then Fatal "Syntax error after close paren"
                else Ok (node, st3)
          else Fatal "Syntax error: expected toplevel expression"
      | TOK_EOF => Fatal "Syntax error: expected toplevel expression"
      end
  end

with parse_repeat (fuel : nat) (st : state) {struct fuel}
  : outcome (ast_node * state) :=
  match fuel with
  | O => OutOfFuel
  | S fuel' =>
      '(l, st1) <- parse_toplevel fuel' st ;;
      let cur := tokenizer_peek (tz st1) in
      if is_op cur "^" then
        let '(rc, st2) := consume st1 in
        if negb (rc =? 0) then Fatal "Syntax error after repeat operator"
        else
          let next := tokenizer_peeknext (tz st2) in
          '(r, st3) <- (if is_op next "^" then parse_repeat fuel' st2
                        else parse_toplevel fuel' st2) ;;
          Ok (new_binop st3 EX_REPEAT l r)
      else Ok (l, st1)
  end

with parse_concat_loop (fuel : nat) (l : ast_node) (st : state) {struct fuel}
  : outcome (ast_node * state) :=
  match fuel with
  | O => OutOfFuel
  | S fuel' =>
      let cur := tokenizer_peek (tz st) in
      if is_op cur "." then
        let '(rc, st1) := consume st in
        if negb (rc =? 0) then Fatal "Syntax error after concat operator"
        else
          '(r, st2) <- parse_repeat fuel' st1 ;;
          let '(l', st3) := new_binop st2 EX_CONCAT l r in
          parse_concat_loop fuel' l' st3
      else Ok (l, st)
  end

with parse_concat (fuel : nat) (st : state) {struct fuel}
  : outcome (ast_node * state) :=
  match fuel with
  | O => OutOfFuel
  | S fuel' =>
      '(l, st1) <- parse_repeat fuel' st ;;
      parse_concat_loop fuel' l st1
  end

with parse (fuel : nat) (st : state) {struct fuel}
  : outcome (ast_node * state) :=
  match fuel with
  | O => OutOfFuel
  | S fuel' => parse_concat fuel' st
  end.

(** ** The driver (lines 342-354) *)

Definition EXIT_FAILURE : Z := 1.

(** How a run ends: the exit status with what reached the output stream,
    and for a fatal error its diagnostic. *)
Inductive run_t : Type :=
| Exited (status : Z) (stdout : list byte) (diagnostic : option string)
| Crashed
| Unfinished.

Definition run_of {A : Type} (stdout : list byte) (o : outcome A)
  (k : A -> run_t) : run_t :=
  match o with
  | Ok a => k a
  | Fatal msg => Exited EXIT_FAILURE stdout (Some msg)
  | Undefined => Crashed
  | OutOfFuel => Unfinished
  end.

(** The tokens of [tz] in [main] before [tokenizer_init]: nothing reads
    them. *)
Definition tok_unset : tok_t := mk_tok TOK_EOF x00 [] 0.

(** A bound on the depth of the calls of the parser on an input. *)
Definition parse_fuel (inp : list byte) : nat := 8 + 4 * length inp.

(** The statements of [main] that follow the call of [parse]: the tree is
    printed, evaluated, the value printed with a newline, and the tree
    released.  ([tokenizer_cleanup] then rewrites the tags of the two
    tokens of the cursor, which nothing reads any more.) *)
Definition main_print_eval (w : Z) (p : ast_node) : run_t :=
  run_of [] (ast_print p) (fun out1 =>
  run_of out1 (eval w p) (fun buf =>
  let out2 := out1 ++ buf_print buf ++ printf nl [] in
  run_of out2 (ast_free p) (fun _ =>
  Exited 0 out2 None))).

(** The first statements of [main]: the cursor is set up on the input and
    [parse] is called. *)
Definition main_parse (hp : nat -> Z) (stdin : list byte)
  : outcome (ast_node * state) :=
  let '(rc, tz0, errs) :=
    tokenizer_init (mk_tz tok_unset tok_unset []) stdin in
  if negb (rc =? 0) then Fatal "Failed to initialize tokenizer"
  else parse (parse_fuel stdin) (mk_state tz0 hp O errs).

Definition main (w : Z) (hp : nat -> Z) (stdin : list byte) : run_t :=
  run_of [] (main_parse hp stdin) (fun '(p, st) => main_print_eval w p).

(** * The vocabulary of the properties *)

Definition is_digit_char (b : byte) : bool := isdigit (int_of_char b).

Definition all_digits (buf : buffer_t) : bool := forallb is_digit_char buf.

(** The number a digit string denotes in base 10: each digit weighted by
    the power of ten of its position. *)
Fixpoint decimal_value (ds : list byte) : Z :=
  match ds with
  | [] => 0
  | d :: rest =>
      (int_of_char d - 48) * 10 ^ Z.of_nat (length rest) + decimal_value rest
  end.

(** What [print_lev] writes for one level. *)
Definition indent_unit : list byte := bytes "|   ".

Definition indent (lev : Z) : list byte :=
  concat (repeat indent_unit (Z.to_nat lev)).

Definition tok_rc (r : Z * tok_t * list byte * list string) : Z :=
  fst (fst (fst r)).

Definition tok_of (r : Z * tok_t * list byte * list string) : tok_t :=
  snd (fst (fst r)).

Definition rest_of (r : Z * tok_t * list byte * list string) : list byte :=
  snd (fst r).

(** The diagnostics of the five [fatal] calls that follow a failed
    [tokenizer_consume]. *)
Definition consume_guards : list string :=
  [ "Syntax error after literal"; "Syntax error after open paren";
    "Syntax error after close paren"; "Syntax error after repeat operator";
    "Syntax error after concat operator" ]%string.

Definition reports_consume_failure {A : Type} (o : outcome A) : bool :=
  match o with
  | Fatal msg => existsb (String.eqb msg) consume_guards
  | _ => false
  end.

(** The diagnostics of the two [fatal] calls of [parse_toplevel] that
    test the current token. *)
Definition grammar_errors : list string :=
  [ "Syntax error: expected close paren";
    "Syntax error: expected toplevel expression" ]%string.

Definition reports_init_failure (r : run_t) : bool :=
  match r with
  | Exited _ _ (Some msg) => String.eqb msg "Failed to initialize tokenizer"
  | _ => false
  end.

(** An outcome that, when fatal, carries one of the diagnostics
    [allowed]. *)
Definition fatal_within {A : Type} (allowed : list string) (o : outcome A)
  : bool :=
  match o with
  | Fatal msg => existsb (String.eqb msg) allowed
  | _ => true
  end.

(** A stream on which the digit loop stops at once. *)
Definition stops_digits (t : list byte) : bool :=
  match t with
  | [] => true
  | c :: _ => negb (is_digit_char c)
  end.

Definition token_count (tok : tok_t) : nat :=
  if toktype_eqb (tok_type tok) TOK_EOF then 0 else 1.

(** The tokens still to come: those of the cursor that are not the end
    token, and at most one per byte left in the stream. *)
Definition pending (t : tokenizer_t) : nat :=
  token_count (tz_cur t) + token_count (tz_next t) + length (tz_in t).

(** An outcome of a parser function called with [pending] equal to [m]:
    a result leaves at most [m - used] tokens, and the bound of the model
    is reached only if [enough] fails. *)
Definition settles (used m : nat) (enough : Prop)
  (o : outcome (ast_node * state)) : Prop :=
  match o with
  | Ok (_, st') => (pending (tz st') + used <= m)%nat
  | OutOfFuel => ~ enough
  | _ => True
  end.

(** The tree a parser function returns. *)
Definition tree_of (o : outcome (ast_node * state)) : outcome ast_node :=
  '(p, _) <- o ;; Ok p.

(** The tree [parse] returns in [main]. *)
Definition parsed_tree (hp : nat -> Z) (stdin : list byte)
  : outcome ast_node :=
  tree_of (main_parse hp stdin).

(** ** Vocabulary of the further properties *)

(** A character [next_tok] passes over: neither an operator nor a
    digit. *)
Definition is_ignored_char (ch : byte) : bool :=
  negb (is_op_char (int_of_char ch)) && negb (isdigit (int_of_char ch)).

(** The bytes of the input a token stands for. *)
Definition tok_payload (t : tok_t) : list byte :=
  match tok_type t with
  | TOK_STR => tok_buf t
  | TOK_OP => [tok_op t]
  | TOK_EOF => []
  end.

(** The diagnostics for the characters of [junk] that are not among the
    silently skipped ones, in order. *)
Definition unrecognized (junk : list byte) : list string :=
  map (fun ch => err_unrecognized (int_of_char ch))
    (filter (fun ch => negb (is_skipped_char (int_of_char ch))) junk).

(** A token as the parser sees it: the tag and the member of the union
    the tag selects. *)
Inductive token : Type :=
| StrTok (digits : buffer_t)
| OpTok (c : byte)
| EndTok.

Definition view (t : tok_t) : token :=
  match tok_type t with
  | TOK_STR => StrTok (tok_buf t)
  | TOK_OP => OpTok (tok_op t)
  | TOK_EOF => EndTok
  end.

(** The tokens [next_tok] gives when called again and again on what it
    left, up to the end token. *)
Fixpoint lex (fuel : nat) (inp : list byte) : list token :=
  match fuel with
  | O => []
  | S fuel' =>
      let r := next_tok tok_unset inp in
      match view (tok_of r) with
      | EndTok => []
      | t => t :: lex fuel' (rest_of r)
      end
  end.

(** Every token takes at least one byte, so one more round than there are
    bytes reaches the end token. *)
Definition tokens (inp : list byte) : list token :=
  lex (S (length inp)) inp.

Definition tok_at (inp : list byte) (k : nat) : token :=
  nth k (tokens inp) EndTok.

(** What is ahead of a cursor: its two tokens and the tokens of its
    stream. *)
Definition cursor_view (t : tokenizer_t) : list token :=
  view (tz_cur t) :: view (tz_next t) :: tokens (tz_in t).

(** The view one token further. *)
Definition advance (v : list token) : list token :=
  match v with
  | _ :: n :: rest => n :: hd EndTok rest :: tl rest
  | _ => v
  end.

(** The cursor after [k] calls of [tokenizer_consume]. *)
Fixpoint consume_n (k : nat) (t : tokenizer_t) : tokenizer_t :=
  match k with
  | O => t
  | S k' => consume_n k' (snd (fst (tokenizer_consume t)))
  end.



(** An outcome [o'] obtained with a larger bound than [o]. *)
Definition stable {A : Type} (o o' : outcome A) : Prop :=
  o = OutOfFuel \/ o' = o.


(** The number of nodes of a tree. *)
Fixpoint node_count (node : ast_node) : nat :=
  match node with
  | lit_node _ _ => 1
  | bin_node _ l r => S (node_count l + node_count r)
  end.

(** A tree whose operator nodes carry the tag of an operator and whose
    literals hold at least one byte, only digits. *)
Fixpoint well_formed (node : ast_node) : bool :=
  match node with
  | lit_node _ buf => (1 <=? len buf)%nat && all_digits buf
  | bin_node t l r =>
      ((t =? EX_CONCAT) || (t =? EX_REPEAT))
      && well_formed l && well_formed r
  end.


(** A tree whose nodes were allocated one after the other from the block
    of rank [k] on, the operands of a node before the node: each literal
    carries what its block contained. *)
Fixpoint alloc_tags (hp : nat -> Z) (k : nat) (node : ast_node) : bool :=
  match node with
  | lit_node t _ => t =? hp k
  | bin_node _ l r =>
      alloc_tags hp k l && alloc_tags hp (k + node_count l) r
  end.

(** A token that, if a string, holds at least one byte, only digits. *)
Definition tok_ok (t : tok_t) : bool :=
  match tok_type t with
  | TOK_STR => (1 <=? len (tok_buf t))%nat && all_digits (tok_buf t)
  | _ => true
  end.

Definition cursor_ok (t : tokenizer_t) : bool :=
  tok_ok (tz_cur t) && tok_ok (tz_next t).

(** An outcome of a parser function run with the heap [hp], the tree
    under construction starting at the block of rank [k0]. *)
Definition built (hp : nat -> Z) (k0 : nat)
  (o : outcome (ast_node * state)) : Prop :=
  match o with
  | Ok (p, st') =>
      well_formed p = true /\ alloc_tags hp k0 p = true
      /\ cursor_ok (tz st') = true /\ heap st' = hp
      /\ nalloc st' = (k0 + node_count p)%nat
  | _ => True
  end.

Definition crashes {A : Type} (o : outcome A) : bool :=
  match o with
  | Undefined => true
  | _ => false
  end.


(** The character of an operator node. *)
Definition op_char (t : Z) : byte :=
  if t =? EX_CONCAT then "."%byte else "^"%byte.

(** A program for a tree: literals as they are, the two operands of an
    operator in parentheses. *)
Fixpoint unparse (node : ast_node) : list byte :=
  match node with
  | lit_node _ buf => buf
  | bin_node t l r =>
      "("%byte :: unparse l
        ++ ")"%byte :: op_char t :: "("%byte :: unparse r ++ [")"%byte]
  end.

(** The tokens of that program. *)
Fixpoint toks (node : ast_node) : list token :=
  match node with
  | lit_node _ buf => [StrTok buf]
  | bin_node t l r =>
      OpTok "(" :: toks l
        ++ OpTok ")" :: OpTok (op_char t) :: OpTok "(" :: toks r
        ++ [OpTok ")"]
  end.

(** The view of a cursor with the tokens [l] ahead: past the last token
    the cursor holds end tokens. *)
Definition pad (l : list token) : list token :=
  match l with
  | [] => [EndTok; EndTok]
  | [a] => [a; EndTok]
  | _ => l
  end.

(** Tokens that start with a closing parenthesis, or no token. *)
Definition closes (rest : list token) : bool :=
  match rest with
  | [] => true
  | OpTok c :: _ => Byte.eqb c ")"
  | _ => false
  end.

(** The parser function returned the tree [p] from the state [st],
    having allocated its nodes and left the tokens [rest] ahead. *)
Definition lands (p : ast_node) (st : state) (rest : list token)
  (o : outcome (ast_node * state)) : Prop :=
  exists st',
    o = Ok (p, st') /\ cursor_view (tz st') = pad rest
    /\ heap st' = heap st
    /\ nalloc st' = (nalloc st + node_count p)%nat.

(** Literals joined by [^]: the text, the tokens, and the tree that nests
    to the right, its nodes allocated from the block of rank [k] on. *)
Fixpoint rtext (lits : list buffer_t) : list byte :=
  match lits with
  | [] => []
  | [b] => b
  | b :: bs => b ++ "^"%byte :: rtext bs
  end.

Fixpoint rtoks (lits : list buffer_t) : list token :=
  match lits with
  | [] => []
  | [b] => [StrTok b]
  | b :: bs => StrTok b :: OpTok "^" :: rtoks bs
  end.

Fixpoint rtree (hp : nat -> Z) (k : nat) (b : buffer_t)
  (bs : list buffer_t) : ast_node :=
  match bs with
  | [] => lit_node (hp k) b
  | b' :: bs' =>
      bin_node EX_REPEAT (lit_node (hp k) b) (rtree hp (S k) b' bs')
  end.

(** Such groups, each led by a [.], after a tree [acc] whose nodes were
    allocated from the block of rank [k0] on: the text, the tokens, and the
    tree that nests to the left. *)
Fixpoint ctext (groups : list (buffer_t * list buffer_t)) : list byte :=
  match groups with
  | [] => []
  | (b, bs) :: rest => "."%byte :: rtext (b :: bs) ++ ctext rest
  end.

Fixpoint ctoks (groups : list (buffer_t * list buffer_t)) : list token :=
  match groups with
  | [] => []
  | (b, bs) :: rest => OpTok "." :: rtoks (b :: bs) ++ ctoks rest
  end.

Fixpoint ctree (hp : nat -> Z) (k0 : nat) (acc : ast_node)
  (groups : list (buffer_t * list buffer_t)) : ast_node :=
  match groups with
  | [] => acc
  | (b, bs) :: rest =>
      ctree hp k0
        (bin_node EX_CONCAT acc (rtree hp (k0 + node_count acc) b bs)) rest
  end.

(** A non-empty string of digits. *)
Definition is_literal (b : buffer_t) : bool :=
  (1 <=? len b)%nat && all_digits b.

Definition group_ok (g : buffer_t * list buffer_t) : bool :=
  is_literal (fst g) && forallb is_literal (snd g).

(** * Properties *)

(** ** Buffers *)

Lemma memcpy_all (a : list byte) : memcpy a (len a) = a.
Proof. apply firstn_all. Qed.

Lemma buf_dup_eq (buf : buffer_t) : buf_dup buf = buf.
Proof. apply memcpy_all. Qed.

Lemma buf_print_eq (buf : buffer_t) : buf_print buf = buf.
Proof. induction buf as [|c p IH]; simpl; [reflexivity | now rewrite IH]. Qed.

Lemma buf_concat_app (a b : buffer_t) : buf_concat a b = a ++ b.
Proof. unfold buf_concat. now rewrite !memcpy_all. Qed.




Lemma char_of_int_of_char (b : byte) : char_of_int (int_of_char b) = b.
Proof. destruct b; reflexivity. Qed.

(** At the end of the stream the digit loop reads [EOF], which is not a
    digit. *)
Lemma isdigit_EOF : isdigit EOF = false.
Proof. reflexivity. Qed.

(** ** The value of a digit string *)

Lemma asulong_step_mod (w num : Z) (c : byte) :
  asulong_step w (num mod 2 ^ w) c
  = (num * 10 + (int_of_char c - 48)) mod 2 ^ w.
Proof.
  unfold asulong_step, wrap.
  rewrite Zmult_mod_idemp_l, <- Zplus_mod. reflexivity.
Qed.

Lemma asulong_fold_mod (w : Z) (ds : list byte) (num : Z) :
  fold_left (asulong_step w) ds (num mod 2 ^ w)
  = (num * 10 ^ Z.of_nat (length ds) + decimal_value ds) mod 2 ^ w.
Proof.
  revert num. induction ds as [|d ds IH]; intros num.
  - simpl. f_equal. lia.
  - cbn [fold_left]. rewrite asulong_step_mod, IH. f_equal.
    cbn [decimal_value length]. rewrite Nat2Z.inj_succ, Z.pow_succ_r by lia.
    ring.
Qed.

Lemma buf_asulong_decimal (w : Z) (buf : buffer_t) :
  buf_asulong w buf = decimal_value buf mod 2 ^ w.
Proof.
  unfold buf_asulong.
  rewrite <- (Zmod_0_l (2 ^ w)) at 1.
  rewrite asulong_fold_mod. f_equal.
Qed.

(** C10: on an all-digit buffer [buf_asulong] returns the base-10 value of
    the buffer reduced modulo [2^w], [w] being the width of
    [unsigned long]: overflow wraps, it does not saturate; the empty buffer
    gives 0. *)
Theorem buf_asulong_wraps (w : Z) (buf : buffer_t) :
  all_digits buf = true ->
  buf_asulong w buf = decimal_value buf mod 2 ^ w
  /\ buf_asulong w [] = 0.
Proof.
  intros _. split.
  - apply buf_asulong_decimal.
  - reflexivity.
Qed.

(** At width 64 the twenty digits of [2^64 + 1] are read as 1. *)
Lemma buf_asulong_wraps_witness :
  all_digits (bytes "18446744073709551617") = true
  /\ buf_asulong 64 (bytes "18446744073709551617") = 1
  /\ decimal_value (bytes "18446744073709551617") = 2 ^ 64 + 1.
Proof.
  assert (D : all_digits (bytes "18446744073709551617") = true)
    by reflexivity.
  destruct (buf_asulong_wraps 64 (bytes "18446744073709551617") D)
    as [E _].
  split; [exact D | split; [rewrite E | ]; reflexivity].
Defined.

(** ** Evaluation of the two operators *)

Lemma eval_concat_eq (w : Z) (a b : ast_node) :
  eval w (bin_node EX_CONCAT a b)
  = (vl <- eval w a ;; vr <- eval w b ;; Ok (vl ++ vr)).
Proof.
  change (eval w (bin_node EX_CONCAT a b))
    with (vl <- eval w a ;; vr <- eval w b ;; Ok (buf_concat vl vr)).
  destruct (eval w a) as [va| | |]; cbn [bind]; try reflexivity.
  destruct (eval w b) as [vb| | |]; cbn [bind]; try reflexivity.
  now rewrite buf_concat_app.
Qed.






(** ** Nodes made by [ast_new_lit] *)

Lemma ast_new_lit_eq (uninit : Z) (buf : buffer_t) :
  ast_new_lit uninit buf = lit_node uninit buf.
Proof. unfold ast_new_lit. now rewrite buf_dup_eq. Qed.

(** C6 on the program: the node [ast_new_lit] returns holds a copy of the
    bytes, and its [type] is whatever the block contained, here
    [EX_REPEAT]: no statement of the function makes it [EX_LIT]. *)
Theorem ast_new_lit_type_unset :
  (forall (uninit : Z) (buf : buffer_t),
      ast_new_lit uninit buf = lit_node uninit buf
      /\ node_type (ast_new_lit uninit buf) = uninit)
  /\ ast_new_lit EX_REPEAT (bytes "1") = lit_node EX_REPEAT (bytes "1")
  /\ (node_type (ast_new_lit EX_REPEAT (bytes "1")) =? EX_LIT) = false
  /\ eval 64 (ast_new_lit EX_REPEAT (bytes "1")) = Undefined.
Proof.
  split; [|split; [|split]].
  - intros uninit buf. split; [apply ast_new_lit_eq | reflexivity].
  - reflexivity.
  - reflexivity.
  - reflexivity.
Qed.

(** ** Indentation *)

Lemma print_lev_loop_units (n : nat) :
  print_lev_loop n = concat (repeat indent_unit n).
Proof.
  induction n as [|n IH]; [reflexivity|].
  cbn [print_lev_loop repeat concat]. now rewrite IH.
Qed.

Lemma print_lev_indent (lev : Z) (fmt : string) (va : list byte) :
  print_lev lev fmt va = indent lev ++ printf fmt va.
Proof. unfold print_lev, indent. now rewrite print_lev_loop_units. Qed.

(** C8, as the program has it: the prefix of a line at level [lev] is
    [lev] copies of the 4-character unit made of a bar and three spaces; a
    literal is one line at its level, an operator node a line at its level,
    the [Left:] and [Right:] lines one level deeper and the operands two
    levels deeper. *)
Theorem print_lev_four_per_level :
  length indent_unit = 4%nat
  /\ (forall (lev : Z) (fmt : string) (va : list byte),
         print_lev lev fmt va
         = concat (repeat indent_unit (Z.to_nat lev)) ++ printf fmt va)
  /\ (forall (buf : buffer_t) (lev : Z),
         ast_print_inner (lit_node EX_LIT buf) lev
         = Ok (indent lev ++ bytes "String literal:" ++ buf ++ bytes nl))
  /\ (forall (t : Z) (l r : ast_node) (lev : Z) (outl outr : list byte),
         t = EX_CONCAT \/ t = EX_REPEAT ->
         ast_print_inner l (lev + 2) = Ok outl ->
         ast_print_inner r (lev + 2) = Ok outr ->
         ast_print_inner (bin_node t l r) lev
         = Ok ((indent lev ++ bytes "Binop: "
                  ++ [if t =? EX_CONCAT then "."%byte else "^"%byte]
                  ++ bytes nl)
                 ++ (indent (lev + 1) ++ bytes ("Left:" ++ nl))
                 ++ outl
                 ++ (indent (lev + 1) ++ bytes ("Right:" ++ nl))
                 ++ outr)).
Proof.
  split; [reflexivity|]. split; [|split].
  - intros lev fmt va. apply print_lev_indent.
  - intros buf lev. cbn [ast_print_inner node_type].
    change (EX_LIT =? EX_LIT) with true. cbv iota.
    rewrite print_lev_indent, buf_print_eq, <- app_assoc. reflexivity.
  - intros t l r lev outl outr Ht Hl Hr.
    cbn [ast_print_inner node_type]. rewrite Hl, Hr. cbn [bind].
    rewrite !print_lev_indent.
    destruct Ht as [-> | ->]; reflexivity.
Qed.

Lemma print_lev_four_per_level_witness :
  ast_print_inner
    (bin_node EX_REPEAT (lit_node EX_LIT (bytes "1"))
       (lit_node EX_LIT (bytes "2"))) 1
  = Ok (bytes ("|   Binop: ^" ++ nl
               ++ "|   |   Left:" ++ nl
               ++ "|   |   |   String literal:1" ++ nl
               ++ "|   |   Right:" ++ nl
               ++ "|   |   |   String literal:2" ++ nl)).
Proof.
  rewrite (proj2 (proj2 (proj2 print_lev_four_per_level)) EX_REPEAT
             (lit_node EX_LIT (bytes "1")) (lit_node EX_LIT (bytes "2")) 1
             (bytes ("|   |   |   String literal:1" ++ nl))
             (bytes ("|   |   |   String literal:2" ++ nl)));
    [reflexivity | right; reflexivity | reflexivity | reflexivity].
Defined.

(** C8 as worded fails: no unit of 3 characters gives the prefix of a
    line at level 1, which has 4 characters. *)
Lemma indent_unit_not_three :
  ~ (exists unit : list byte,
        length unit = 3%nat
        /\ forall (lev : nat) (fmt : string) (va : list byte),
             print_lev (Z.of_nat lev) fmt va
             = concat (repeat unit lev) ++ printf fmt va).
Proof.
  intros [unit [Hlen H]].
  specialize (H 1%nat EmptyString []).
  assert (L : length (print_lev (Z.of_nat 1) EmptyString []) = 4%nat)
    by reflexivity.
  rewrite H in L. cbn [repeat concat] in L.
  rewrite !length_app, Hlen in L. cbn in L. lia.
Qed.

(** ** The tokenizer never fails *)

Lemma read_digits_rest (inp : list byte) (b : buffer_t) (cp : Z) :
  (length (snd (read_digits inp b cp)) <= length inp)%nat.
Proof.
  revert b cp. induction inp as [|ch rest IH]; intros b cp;
    cbn [read_digits]; [cbn; lia|].
  destruct (isdigit (int_of_char ch)).
  - specialize (IH (b ++ [char_of_int (int_of_char ch)])
                  (if Z.of_nat (len (b ++ [char_of_int (int_of_char ch)]))
                        >=? cp then Z.shiftl cp 1 else cp)).
    cbn [length]. lia.
  - cbn [snd length]. lia.
Qed.

Lemma next_tok_switch_cases (tok : tok_t) (ch : byte) (rest : list byte) :
  (exists tok' rest',
      fst (next_tok_switch tok ch rest) = Return 0 tok' rest'
      /\ (tok_type tok' = TOK_OP \/ tok_type tok' = TOK_STR)
      /\ (length rest' <= length rest)%nat)
  \/ fst (next_tok_switch tok ch rest) = GotoLoop.
Proof.
  unfold next_tok_switch. cbv zeta.
  destruct (is_op_char (int_of_char ch)).
  { left. eexists _, _. cbn. split; [reflexivity|]. split; [auto|lia]. }
  destruct (isdigit (int_of_char ch)).
  { pose proof (read_digits_rest rest [char_of_int (int_of_char ch)] 8) as H.
    destruct (read_digits rest _ 8) as [[b cp] rest'].
    left. eexists _, _. cbn in H |- *. split; [reflexivity|]. auto. }
  destruct (is_skipped_char (int_of_char ch)); right; reflexivity.
Qed.

Lemma next_tok_rc (tok : tok_t) (inp : list byte) :
  tok_rc (next_tok tok inp) = 0.
Proof.
  induction inp as [|ch rest IH]; cbn [next_tok]; [reflexivity|].
  destruct (next_tok_switch_cases tok ch rest) as [(t & r & H & _) | H];
    destruct (next_tok_switch tok ch rest) as [fl errs];
    cbn [fst] in H; subst fl; [reflexivity|].
  destruct (next_tok tok rest) as [[[rc tok'] rest'] errs']. exact IH.
Qed.

Lemma next_tok_eof (tok : tok_t) :
  tok_type (tok_of (next_tok tok [])) = TOK_EOF.
Proof. reflexivity. Qed.

Lemma tokenizer_init_rc (tz0 : tokenizer_t) (inp : list byte) :
  fst (fst (tokenizer_init tz0 inp)) = 0.
Proof.
  unfold tokenizer_init.
  pose proof (next_tok_rc (tz_cur tz0) inp) as H1.
  destruct (next_tok (tz_cur tz0) inp) as [[[rc1 c] in1] e1].
  cbn in H1. subst rc1. cbn [Z.eqb negb].
  pose proof (next_tok_rc (tz_next tz0) in1) as H2.
  destruct (next_tok (tz_next tz0) in1) as [[[rc2 n] in2] e2].
  cbn in H2. subst rc2. reflexivity.
Qed.

Lemma tokenizer_consume_rc (t : tokenizer_t) :
  fst (fst (tokenizer_consume t)) = 0.
Proof.
  unfold tokenizer_consume. cbn [tz_cur tz_next tz_in].
  pose proof (next_tok_rc (tz_next t) (tz_in t)) as H.
  destruct (next_tok (tz_next t) (tz_in t)) as [[[rc n] in'] e].
  cbn in H. subst rc. reflexivity.
Qed.

Lemma tokenizer_consume_cur (t : tokenizer_t) :
  tz_cur (snd (fst (tokenizer_consume t))) = tz_next t.
Proof.
  unfold tokenizer_consume. cbn [tz_cur tz_next tz_in].
  destruct (next_tok (tz_next t) (tz_in t)) as [[[rc n] in'] e].
  destruct (negb (rc =? 0)); reflexivity.
Qed.

Lemma consume_rc (st : state) : fst (consume st) = 0.
Proof.
  unfold consume. pose proof (tokenizer_consume_rc (tz st)) as H.
  destruct (tokenizer_consume (tz st)) as [[rc t'] errs]. exact H.
Qed.

Lemma consume_eq (st : state) : consume st = (0, snd (consume st)).
Proof.
  pose proof (consume_rc st) as H.
  destruct (consume st) as [rc st']. cbn in H. now subst rc.
Qed.

Lemma consume_cur (st : state) :
  tz_cur (tz (snd (consume st))) = tz_next (tz st).
Proof.
  unfold consume. pose proof (tokenizer_consume_cur (tz st)) as H.
  destruct (tokenizer_consume (tz st)) as [[rc t'] errs]. exact H.
Qed.

Lemma consume_heap (st : state) :
  heap (snd (consume st)) = heap st
  /\ nalloc (snd (consume st)) = nalloc st.
Proof.
  unfold consume.
  destruct (tokenizer_consume (tz st)) as [[rc t'] errs]. now split.
Qed.

(** ** The guarded calls of [tokenizer_consume] *)

Lemma bind_fatal_within {A B : Type} (allowed : list string)
  (m : outcome A) (f : A -> outcome B) :
  fatal_within allowed m = true ->
  (forall a, fatal_within allowed (f a) = true) ->
  fatal_within allowed (bind m f) = true.
Proof. intros Hm Hf. destruct m; cbn; auto. Qed.

Lemma fatal_within_cases {A : Type} (allowed : list string) (msg : string) :
  fatal_within allowed (@Fatal A msg) = true -> In msg allowed.
Proof.
  cbn. intros H. apply existsb_exists in H. destruct H as [x [Hin Heq]].
  apply String.eqb_eq in Heq. now subst.
Qed.

Lemma grammar_error_not_guard {A : Type} (o : outcome A) :
  fatal_within grammar_errors o = true -> reports_consume_failure o = false.
Proof.
  destruct o as [a|msg| |]; try reflexivity.
  intros H. apply fatal_within_cases in H.
  destruct H as [<- | [<- | []]]; reflexivity.
Qed.

(** [tokenizer_consume] returned 0: the guard that follows is passed. *)
Ltac consume_ok st :=
  let H := fresh "Hrc" in
  let rc := fresh "rc" in
  let st' := fresh "st" in
  pose proof (consume_rc st) as H;
  destruct (consume st) as [rc st'];
  cbn [fst snd] in H |- *; subst rc; cbn [Z.eqb negb].

(** The parser functions with the result of [tokenizer_consume] known. *)
Lemma parse_toplevel_eq (fuel : nat) (st : state) :
  parse_toplevel (S fuel) st
  = let cur := tz_cur (tz st) in
    match tok_type cur with
    | TOK_STR => Ok (new_lit (snd (consume st)) (tok_buf cur))
    | TOK_OP =>
        if Byte.eqb (tok_op cur) "(" then
          '(node, st2) <- parse fuel (snd (consume st)) ;;
          if is_op (tz_cur (tz st2)) ")"
          then Ok (node, snd (consume st2))
          else Fatal "Syntax error: expected close paren"
        else Fatal "Syntax error: expected toplevel expression"
    | TOK_EOF => Fatal "Syntax error: expected toplevel expression"
    end.
Proof.
  cbn [parse_toplevel]. unfold tokenizer_peek. cbv zeta.
  destruct (tok_type (tz_cur (tz st))); try reflexivity.
  - consume_ok st. reflexivity.
  - destruct (Byte.eqb (tok_op (tz_cur (tz st))) "("); [|reflexivity].
    consume_ok st.
    destruct (parse fuel st0) as [[node st2]| | |];
      cbn [bind]; try reflexivity.
    unfold is_op.
    destruct (toktype_eqb (tok_type (tz_cur (tz st2))) TOK_OP);
      cbn [negb orb andb]; [|reflexivity].
    destruct (Byte.eqb (tok_op (tz_cur (tz st2))) ")");
      cbn [negb]; [|reflexivity].
    consume_ok st2. reflexivity.
Qed.

Lemma parse_repeat_eq (fuel : nat) (st : state) :
  parse_repeat (S fuel) st
  = '(l, st1) <- parse_toplevel fuel st ;;
    if is_op (tz_cur (tz st1)) "^" then
      let st2 := snd (consume st1) in
      '(r, st3) <- (if is_op (tz_next (tz st2)) "^"
                    then parse_repeat fuel st2
                    else parse_toplevel fuel st2) ;;
      Ok (new_binop st3 EX_REPEAT l r)
    else Ok (l, st1).
Proof.
  cbn [parse_repeat].
  destruct (parse_toplevel fuel st) as [[l st1]| | |]; cbn [bind];
    try reflexivity.
  unfold tokenizer_peek, tokenizer_peeknext.
  destruct (is_op (tz_cur (tz st1)) "^"); [|reflexivity].
  consume_ok st1. reflexivity.
Qed.

Lemma parse_concat_loop_eq (fuel : nat) (l : ast_node) (st : state) :
  parse_concat_loop (S fuel) l st
  = if is_op (tz_cur (tz st)) "." then
      '(r, st2) <- parse_repeat fuel (snd (consume st)) ;;
      let '(l', st3) := new_binop st2 EX_CONCAT l r in
      parse_concat_loop fuel l' st3
    else Ok (l, st).
Proof.
  cbn [parse_concat_loop]. unfold tokenizer_peek.
  destruct (is_op (tz_cur (tz st)) "."); [|reflexivity].
  consume_ok st. reflexivity.
Qed.



Lemma parser_fatal_within (fuel : nat) :
  (forall st, fatal_within grammar_errors (parse_toplevel fuel st) = true)
  /\ (forall st, fatal_within grammar_errors (parse_repeat fuel st) = true)
  /\ (forall l st,
         fatal_within grammar_errors (parse_concat_loop fuel l st) = true)
  /\ (forall st, fatal_within grammar_errors (parse_concat fuel st) = true)
  /\ (forall st, fatal_within grammar_errors (parse fuel st) = true).
Proof.
  induction fuel as [|fuel (IHt & IHr & IHl & IHc & IHp)].
  { repeat split; intros; reflexivity. }
  split; [|split; [|split; [|split]]].
  - intros st. rewrite parse_toplevel_eq. cbv zeta.
    destruct (tok_type (tz_cur (tz st))); try reflexivity.
    destruct (Byte.eqb (tok_op (tz_cur (tz st))) "("); [|reflexivity].
    apply bind_fatal_within; [apply IHp|].
    intros [node st2]. destruct (is_op (tz_cur (tz st2)) ")"); reflexivity.
  - intros st. rewrite parse_repeat_eq.
    apply bind_fatal_within; [apply IHt|].
    intros [l st1]. destruct (is_op (tz_cur (tz st1)) "^"); [|reflexivity].
    cbv zeta. apply bind_fatal_within.
    + destruct (is_op (tz_next (tz (snd (consume st1)))) "^");
        [apply IHr | apply IHt].
    + intros [r st3]. reflexivity.
  - intros l st. rewrite parse_concat_loop_eq.
    destruct (is_op (tz_cur (tz st)) "."); [|reflexivity].
    apply bind_fatal_within; [apply IHr|].
    intros [r st2]. destruct (new_binop st2 EX_CONCAT l r) as [l' st3].
    apply IHl.
  - intros st. cbn [parse_concat].
    apply bind_fatal_within; [apply IHr|].
    intros [l st1]. apply IHl.
  - intros st. cbn [parse]. apply IHc.
Qed.

Lemma ast_free_cases (node : ast_node) :
  ast_free node = Ok tt \/ ast_free node = Undefined.
Proof.
  induction node as [t buf | t l IHl r IHr]; cbn [ast_free node_type];
    destruct ((t =? EX_CONCAT) || (t =? EX_REPEAT)); auto.
  destruct IHl as [-> | ->]; cbn [bind]; auto.
  destruct IHr as [-> | ->]; cbn [bind]; auto.
Qed.

(** A tree the printer went through is released without harm. *)
Lemma ast_free_printed (node : ast_node) (lev : Z) (out : list byte) :
  ast_print_inner node lev = Ok out -> ast_free node = Ok tt.
Proof.
  revert lev out. induction node as [t buf | t l IHl r IHr];
    intros lev out; cbn [ast_print_inner ast_free node_type].
  - destruct (t =? EX_LIT) eqn:E0.
    + apply Z.eqb_eq in E0. subst t. reflexivity.
    + destruct ((t =? EX_CONCAT) || (t =? EX_REPEAT));
        [discriminate | reflexivity].
  - destruct (t =? EX_LIT); [discriminate|].
    destruct ((t =? EX_CONCAT) || (t =? EX_REPEAT)); [|reflexivity].
    destruct (ast_print_inner l (lev + 2)) as [ol| | |] eqn:El; cbn [bind];
      try discriminate.
    destruct (ast_print_inner r (lev + 2)) as [or| | |] eqn:Er; cbn [bind];
      try discriminate.
    intros _. rewrite (IHl _ _ El), (IHr _ _ Er). reflexivity.
Qed.

Lemma eval_fatal_within (w : Z) (node : ast_node) :
  fatal_within ["Attempt to evaluate unknown node"%string] (eval w node)
  = true.
Proof.
  induction node as [t buf | t l IHl r IHr]; cbn [eval node_type].
  - destruct (t =? EX_LIT); [reflexivity|].
    destruct ((t =? EX_CONCAT) || (t =? EX_REPEAT)); reflexivity.
  - destruct (t =? EX_LIT); [reflexivity|].
    destruct ((t =? EX_CONCAT) || (t =? EX_REPEAT)); [|reflexivity].
    apply bind_fatal_within; [exact IHl|]. intros vl.
    apply bind_fatal_within; [exact IHr|]. intros vr. reflexivity.
Qed.

Lemma ast_print_inner_not_fatal (node : ast_node) (lev : Z) (msg : string) :
  ast_print_inner node lev <> Fatal msg.
Proof.
  revert lev. induction node as [t buf | t l IHl r IHr]; intros lev;
    cbn [ast_print_inner node_type].
  - destruct (t =? EX_LIT); [discriminate|].
    destruct ((t =? EX_CONCAT) || (t =? EX_REPEAT)); discriminate.
  - destruct (t =? EX_LIT); [discriminate|].
    destruct ((t =? EX_CONCAT) || (t =? EX_REPEAT)); [|discriminate].
    specialize (IHl (lev + 2)). specialize (IHr (lev + 2)).
    destruct (ast_print_inner l (lev + 2)); cbn [bind];
      try discriminate; try congruence.
    destruct (ast_print_inner r (lev + 2)); cbn [bind];
      try discriminate; congruence.
Qed.

(** C9: no case of the [switch] of [next_tok] leaves it other than by
    [return 0], with an operator or a string token, or by [goto loop],
    with a diagnostic unless the character is one of the skipped ones, so
    the [return 1] after the [switch] is never reached: [next_tok] returns
    0 on every stream, whatever token it is given to fill, and gives the
    end token on the empty stream; so
    [tokenizer_init] and [tokenizer_consume] return 0, no run reports a
    failed initialisation, and the parser never ends with one of the
    diagnostics that follow a failed [tokenizer_consume]. *)
Theorem tokenizer_never_fails :
  (forall (tok : tok_t) (ch : byte) (rest : list byte),
      match next_tok_switch tok ch rest with
      | (Return rc tok' _, errs) =>
          rc = 0 /\ errs = []
          /\ (tok_type tok' = TOK_OP \/ tok_type tok' = TOK_STR)
      | (GotoLoop, errs) =>
          errs = (if is_skipped_char (int_of_char ch) then []
                  else [err_unrecognized (int_of_char ch)])
      | (Break, _) => False
      end)
  /\ (forall (tok : tok_t) (inp : list byte), tok_rc (next_tok tok inp) = 0)
  /\ (forall tok : tok_t, tok_type (tok_of (next_tok tok [])) = TOK_EOF)
  /\ (forall (tz0 : tokenizer_t) (inp : list byte),
         fst (fst (tokenizer_init tz0 inp)) = 0)
  /\ (forall t : tokenizer_t, fst (fst (tokenizer_consume t)) = 0)
  /\ (forall (fuel : nat) (st : state),
         reports_consume_failure (parse fuel st) = false
         /\ reports_consume_failure (parse_concat fuel st) = false
         /\ reports_consume_failure (parse_repeat fuel st) = false
         /\ reports_consume_failure (parse_toplevel fuel st) = false)
  /\ (forall (w : Z) (hp : nat -> Z) (stdin : list byte),
         reports_init_failure (main w hp stdin) = false).
Proof.
  split.
  { intros tok ch rest. unfold next_tok_switch. cbv zeta.
    destruct (is_op_char (int_of_char ch)); [cbn; auto|].
    destruct (isdigit (int_of_char ch)).
    - destruct (read_digits rest _ 8) as [[b cp] rest']. cbn. auto.
    - destruct (is_skipped_char (int_of_char ch)); reflexivity. }
  split; [exact next_tok_rc|]. split; [exact next_tok_eof|].
  split; [exact tokenizer_init_rc|]. split; [exact tokenizer_consume_rc|].
  split.
  - intros fuel st.
    destruct (parser_fatal_within fuel) as (Ht & Hr & _ & Hc & Hp).
    auto using @grammar_error_not_guard.
  - intros w hp stdin. unfold main, main_parse.
    pose proof (tokenizer_init_rc (mk_tz tok_unset tok_unset []) stdin) as H.
    destruct (tokenizer_init _ stdin) as [[rc tz0] errs].
    cbn in H. subst rc. cbn [Z.eqb negb].
    match goal with |- context [parse ?f ?s] =>
      pose proof (proj2 (proj2 (proj2 (proj2 (parser_fatal_within f)))) s)
        as Hp; destruct (parse f s) as [[p st]|msg| |] end;
      cbn [run_of]; try reflexivity.
    + pose proof (ast_print_inner_not_fatal p 0) as Hq.
      unfold main_print_eval, ast_print.
      destruct (ast_print_inner p 0) as [o1|msg| |]; cbn [run_of];
        try reflexivity; [|now destruct (Hq msg)].
      pose proof (eval_fatal_within w p) as He.
      destruct (eval w p) as [b|msg| |]; cbn [run_of]; try reflexivity.
      * cbv zeta. destruct (ast_free_cases p) as [-> | ->]; reflexivity.
      * apply fatal_within_cases in He. destruct He as [<- | []].
        reflexivity.
    + apply fatal_within_cases in Hp.
      destruct Hp as [<- | [<- | []]]; reflexivity.
Qed.

(** ** Lexing a run of digits *)

Lemma read_digits_run (s t : list byte) (b : buffer_t) (cp : Z) :
  all_digits s = true -> stops_digits t = true ->
  fst (fst (read_digits (s ++ t) b cp)) = b ++ s
  /\ snd (read_digits (s ++ t) b cp) = t.
Proof.
  intros Hs Ht. revert b cp.
  induction s as [|c s IH]; intros b cp.
  - cbn [app]. destruct t as [|c t']; cbn [read_digits].
    + now rewrite app_nil_r.
    + cbn [stops_digits] in Ht. unfold is_digit_char in Ht.
      destruct (isdigit (int_of_char c)); [discriminate|].
      cbn [fst snd]. now rewrite app_nil_r, char_of_int_of_char.
  - cbn [all_digits forallb] in Hs. apply andb_prop in Hs.
    destruct Hs as [Hc Hs]. unfold is_digit_char in Hc.
    cbn [app read_digits]. rewrite Hc, char_of_int_of_char.
    destruct (IH Hs (b ++ [c])
                (if Z.of_nat (len (b ++ [c])) >=? cp
                 then Z.shiftl cp 1 else cp)) as [E1 E2].
    rewrite E1, E2. now rewrite <- app_assoc.
Qed.

Lemma digit_not_op (c : byte) :
  is_digit_char c = true -> is_op_char (int_of_char c) = false.
Proof. destruct c; intros H; try discriminate H; reflexivity. Qed.

Lemma next_tok_digits (tok : tok_t) (c : byte) (s t : list byte) :
  is_digit_char c = true -> all_digits s = true -> stops_digits t = true ->
  let r := next_tok tok (c :: s ++ t) in
  tok_rc r = 0
  /\ tok_type (tok_of r) = TOK_STR
  /\ tok_buf (tok_of r) = c :: s
  /\ rest_of r = t
  /\ snd r = [].
Proof.
  intros Hc Hs Ht. cbn [next_tok]. unfold next_tok_switch. cbv zeta.
  rewrite (digit_not_op c Hc).
  unfold is_digit_char in Hc. rewrite Hc, char_of_int_of_char.
  destruct (read_digits_run s t [c] 8 Hs Ht) as [E1 E2].
  destruct (read_digits (s ++ t) [c] 8) as [[b cp] rest'].
  cbn in E1, E2. subst b rest'. cbn. auto.
Qed.

(** The cursor after [tokenizer_init] on a digit string [lit] followed by
    [t]: the current token is [lit], the next one is the first token of
    [t]. *)
Lemma tokenizer_init_digits (tz0 : tokenizer_t) (lit t : list byte) :
  lit <> [] -> all_digits lit = true -> stops_digits t = true ->
  let r := tokenizer_init tz0 (lit ++ t) in
  fst (fst r) = 0
  /\ tok_type (tz_cur (snd (fst r))) = TOK_STR
  /\ tok_buf (tz_cur (snd (fst r))) = lit
  /\ tz_next (snd (fst r)) = tok_of (next_tok (tz_next tz0) t).
Proof.
  intros Hne Hs Ht. destruct lit as [|c s]; [congruence|].
  cbn [all_digits forallb] in Hs. apply andb_prop in Hs.
  destruct Hs as [Hc Hs].
  pose proof (next_tok_digits (tz_cur tz0) c s t Hc Hs Ht) as H.
  cbv zeta in H |- *. unfold tokenizer_init.
  change ((c :: s) ++ t) with (c :: s ++ t).
  destruct (next_tok (tz_cur tz0) (c :: s ++ t)) as [[[rc1 cur] in1] e1].
  cbn in H. destruct H as (-> & Hty & Hbuf & -> & ->).
  cbn [Z.eqb negb].
  pose proof (next_tok_rc (tz_next tz0) t) as H2.
  destruct (next_tok (tz_next tz0) t) as [[[rc2 n] in2] e2].
  cbn in H2. subst rc2. cbn. auto.
Qed.

(** ** Parsing and running a literal *)

(** A literal followed by a token that is neither [^] nor [.]: the parser
    returns the node of the literal and leaves that token in place. *)
Lemma parse_literal (fuel : nat) (st : state) :
  tok_type (tz_cur (tz st)) = TOK_STR ->
  is_op (tz_next (tz st)) "^" = false ->
  is_op (tz_next (tz st)) "." = false ->
  parse (4 + fuel) st
  = Ok (new_lit (snd (consume st)) (tok_buf (tz_cur (tz st)))).
Proof.
  intros Hty Hrep Hcat.
  assert (Ht : parse_toplevel (S fuel) st
               = Ok (new_lit (snd (consume st)) (tok_buf (tz_cur (tz st))))).
  { rewrite parse_toplevel_eq. cbv zeta. now rewrite Hty. }
  assert (Hcur : tz_cur (tz (snd (new_lit (snd (consume st))
                                    (tok_buf (tz_cur (tz st))))))
                 = tz_next (tz st)).
  { unfold new_lit, malloc_node. cbn [snd tz]. apply consume_cur. }
  change (4 + fuel)%nat with (S (S (S (S fuel)))).
  cbn [parse parse_concat]. rewrite parse_repeat_eq, Ht. cbn [bind].
  destruct (new_lit (snd (consume st)) (tok_buf (tz_cur (tz st))))
    as [l st1] eqn:El.
  cbn [snd] in Hcur. rewrite Hcur, Hrep. cbn [bind].
  rewrite parse_concat_loop_eq, Hcur, Hcat. reflexivity.
Qed.

(** The run on a digit string [lit] followed by [t], when the first token
    of [t] is neither [^] nor [.]: the node of the literal, whose [type]
    is what the first block handed out contained, is printed and
    evaluated; [t] plays no part. *)
Lemma main_literal (w : Z) (hp : nat -> Z) (lit t : list byte) :
  lit <> [] -> all_digits lit = true -> stops_digits t = true ->
  is_op (tok_of (next_tok tok_unset t)) "^" = false ->
  is_op (tok_of (next_tok tok_unset t)) "." = false ->
  main w hp (lit ++ t) = main_print_eval w (lit_node (hp O) lit).
Proof.
  intros Hne Hs Ht Hrep Hcat. unfold main, main_parse.
  pose proof (tokenizer_init_digits (mk_tz tok_unset tok_unset [])
                lit t Hne Hs Ht) as H.
  cbv zeta in H.
  destruct (tokenizer_init (mk_tz tok_unset tok_unset []) (lit ++ t))
    as [[rc tz0] errs].
  cbn [fst snd tz_next] in H. destruct H as (-> & Hty & Hbuf & Hnext).
  cbn [Z.eqb negb].
  change (parse_fuel (lit ++ t))
    with (4 + (4 + 4 * length (lit ++ t)))%nat.
  rewrite parse_literal; cbn [tz]; rewrite ?Hnext; try assumption.
  cbn [run_of]. unfold new_lit, malloc_node.
  destruct (consume_heap (mk_state tz0 hp 0 errs)) as [Hh Hn].
  cbn [heap nalloc] in Hh, Hn. rewrite Hh, Hn, Hbuf, ast_new_lit_eq.
  reflexivity.
Qed.

(** With [EX_LIT] in the block of the node, the run on a digit string
    prints the literal and its value, the digit string itself. *)
Lemma main_literal_tagged (w : Z) (hp : nat -> Z) (lit : list byte) :
  lit <> [] -> all_digits lit = true -> hp O = EX_LIT ->
  eval w (lit_node (hp O) lit) = Ok lit
  /\ main w hp lit
     = Exited 0 (bytes "String literal:" ++ lit ++ bytes nl
                   ++ lit ++ bytes nl) None.
Proof.
  intros Hne Hs Hhp.
  rewrite <- (app_nil_r lit) at 3.
  rewrite main_literal by (assumption || reflexivity).
  rewrite Hhp. unfold main_print_eval, ast_print.
  cbn [eval ast_print_inner node_type]. change (EX_LIT =? EX_LIT) with true.
  cbv iota. cbn [run_of]. rewrite buf_dup_eq, !buf_print_eq.
  split; [reflexivity|].
  change (print_lev 0 "String literal:" []) with (bytes "String literal:").
  change (printf nl []) with (bytes nl).
  now rewrite <- !app_assoc.
Qed.

(** ** The parser returns: a bound on the depth of its calls *)

Lemma next_tok_pending (tok : tok_t) (inp : list byte) :
  (token_count (tok_of (next_tok tok inp))
   + length (rest_of (next_tok tok inp)) <= length inp)%nat.
Proof.
  induction inp as [|ch rest IH]; cbn [next_tok]; [cbn; lia|].
  destruct (next_tok_switch_cases tok ch rest)
    as [(t & r & H & Hty & Hlen) | H];
    destruct (next_tok_switch tok ch rest) as [fl errs];
    cbn [fst] in H; subst fl.
  - unfold tok_of, rest_of, token_count. cbn [fst snd length].
    destruct (toktype_eqb (tok_type t) TOK_EOF); lia.
  - destruct (next_tok tok rest) as [[[rc tok'] rest'] errs'].
    unfold tok_of, rest_of in *. cbn [fst snd length] in *. lia.
Qed.

Lemma consume_pending (st : state) :
  (pending (tz (snd (consume st))) + token_count (tz_cur (tz st))
   <= pending (tz st))%nat.
Proof.
  unfold consume, tokenizer_consume. cbn [tz_cur tz_next tz_in].
  pose proof (next_tok_pending (tz_next (tz st)) (tz_in (tz st))) as H.
  destruct (next_tok (tz_next (tz st)) (tz_in (tz st)))
    as [[[rc n] in'] e].
  cbn in H. unfold pending.
  destruct (negb (rc =? 0)); cbn; lia.
Qed.

Lemma is_op_count (tok : tok_t) (c : byte) :
  is_op tok c = true -> token_count tok = 1%nat.
Proof.
  unfold is_op, token_count.
  destruct (tok_type tok); cbn; congruence.
Qed.

Lemma new_lit_tz (st : state) (buf : buffer_t) :
  tz (snd (new_lit st buf)) = tz st.
Proof. reflexivity. Qed.

Lemma new_binop_tz (st : state) (t : Z) (l r : ast_node) :
  tz (snd (new_binop st t l r)) = tz st.
Proof. reflexivity. Qed.

Lemma settles_bind (used m : nat) (enough : Prop) (used1 m1 : nat)
  (enough1 : Prop) (o : outcome (ast_node * state))
  (k : ast_node * state -> outcome (ast_node * state)) :
  settles used1 m1 enough1 o ->
  (enough -> enough1) ->
  (forall n st', (pending (tz st') + used1 <= m1)%nat ->
                 settles used m enough (k (n, st'))) ->
  settles used m enough (bind o k).
Proof.
  intros Ho He Hk. destruct o as [[n st']| | |]; cbn [bind settles] in *;
    auto.
Qed.

Lemma parser_settles (fuel : nat) :
  (forall st, settles 1 (pending (tz st))
                (4 * pending (tz st) + 1 <= fuel)%nat
                (parse_toplevel fuel st))
  /\ (forall st, settles 1 (pending (tz st))
                   (4 * pending (tz st) + 2 <= fuel)%nat
                   (parse_repeat fuel st))
  /\ (forall l st, settles 0 (pending (tz st))
                     (4 * pending (tz st) + 1 <= fuel)%nat
                     (parse_concat_loop fuel l st))
  /\ (forall st, settles 1 (pending (tz st))
                   (4 * pending (tz st) + 3 <= fuel)%nat
                   (parse_concat fuel st))
  /\ (forall st, settles 1 (pending (tz st))
                   (4 * pending (tz st) + 4 <= fuel)%nat
                   (parse fuel st)).
Proof.
  induction fuel as [|fuel (IHt & IHr & IHl & IHc & IHp)].
  { repeat split; intros; cbn; lia. }
  split; [|split; [|split; [|split]]].
  - (* parse_toplevel *)
    intros st. rewrite parse_toplevel_eq. cbv zeta.
    pose proof (consume_pending st) as Hc. unfold token_count in Hc.
    destruct (tok_type (tz_cur (tz st))) eqn:Ety; cbn [toktype_eqb] in Hc;
      cbn [settles]; auto.
    destruct (Byte.eqb (tok_op (tz_cur (tz st))) "("); cbn [settles]; auto.
    eapply settles_bind; [apply (IHp (snd (consume st))) | lia |].
    intros node st2 H2. cbn iota beta.
    pose proof (consume_pending st2) as Hc2.
    destruct (is_op (tz_cur (tz st2)) ")") eqn:Eop; cbn [settles]; auto.
    lia.
  - (* parse_repeat *)
    intros st. rewrite parse_repeat_eq.
    eapply settles_bind; [apply (IHt st) | lia |].
    intros l st1 H1. cbn iota beta.
    destruct (is_op (tz_cur (tz st1)) "^") eqn:Eop; cbn [settles];
      [|lia].
    pose proof (consume_pending st1) as Hc.
    rewrite (is_op_count _ _ Eop) in Hc. cbv zeta.
    apply (settles_bind _ _ _ 1 (pending (tz (snd (consume st1))))
             (4 * pending (tz (snd (consume st1))) + 2 <= fuel)%nat).
    + destruct (is_op (tz_next (tz (snd (consume st1)))) "^").
      * apply IHr.
      * pose proof (IHt (snd (consume st1))) as H.
        destruct (parse_toplevel fuel (snd (consume st1)))
          as [[r st3]| | |]; cbn [settles] in *; auto; lia.
    + lia.
    + intros r st3 H3. cbn iota beta.
      unfold new_binop, malloc_node. cbn [settles tz]. lia.
  - (* parse_concat_loop *)
    intros l st. rewrite parse_concat_loop_eq.
    destruct (is_op (tz_cur (tz st)) ".") eqn:Eop; cbn [settles]; [|lia].
    pose proof (consume_pending st) as Hc.
    rewrite (is_op_count _ _ Eop) in Hc.
    eapply settles_bind; [apply (IHr (snd (consume st))) | lia |].
    intros r st2 H2. cbn iota beta.
    destruct (new_binop st2 EX_CONCAT l r) as [l' st3] eqn:Eb.
    assert (Etz : tz st3 = tz st2).
    { change st3 with (snd (l', st3)). rewrite <- Eb. reflexivity. }
    pose proof (IHl l' st3) as H. rewrite Etz in H.
    destruct (parse_concat_loop fuel l' st3) as [[n st4]| | |];
      cbn [settles] in *; auto; lia.
  - (* parse_concat *)
    intros st. cbn [parse_concat].
    eapply settles_bind; [apply (IHr st) | lia |].
    intros l st1 H1. cbn iota beta.
    pose proof (IHl l st1) as H.
    destruct (parse_concat_loop fuel l st1) as [[n st2]| | |];
      cbn [settles] in *; auto; lia.
  - (* parse *)
    intros st. cbn [parse].
    pose proof (IHc st) as H.
    destruct (parse_concat fuel st) as [[n st2]| | |];
      cbn [settles] in *; auto; lia.
Qed.

Lemma tokenizer_init_pending (tz0 : tokenizer_t) (inp : list byte) :
  (pending (snd (fst (tokenizer_init tz0 inp))) <= length inp)%nat.
Proof.
  unfold tokenizer_init.
  pose proof (next_tok_pending (tz_cur tz0) inp) as H1.
  pose proof (next_tok_rc (tz_cur tz0) inp) as R1.
  destruct (next_tok (tz_cur tz0) inp) as [[[rc1 c] in1] e1].
  pose proof (next_tok_pending (tz_next tz0) in1) as H2.
  pose proof (next_tok_rc (tz_next tz0) in1) as R2.
  destruct (next_tok (tz_next tz0) in1) as [[[rc2 n] in2] e2].
  cbn in H1, H2, R1, R2. subst rc1 rc2. cbn [Z.eqb negb].
  unfold pending. cbn [fst snd tz_cur tz_next tz_in]. lia.
Qed.

(** Neither the printer nor the evaluator has a bound to reach. *)
Lemma ast_print_inner_returns (node : ast_node) (lev : Z) :
  ast_print_inner node lev <> OutOfFuel.
Proof.
  revert lev. induction node as [t buf | t l IHl r IHr]; intros lev;
    cbn [ast_print_inner node_type].
  - destruct (t =? EX_LIT); [discriminate|].
    destruct ((t =? EX_CONCAT) || (t =? EX_REPEAT)); discriminate.
  - destruct (t =? EX_LIT); [discriminate|].
    destruct ((t =? EX_CONCAT) || (t =? EX_REPEAT)); [|discriminate].
    specialize (IHl (lev + 2)). specialize (IHr (lev + 2)).
    destruct (ast_print_inner l (lev + 2)); cbn [bind];
      try discriminate; try congruence.
    destruct (ast_print_inner r (lev + 2)); cbn [bind];
      try discriminate; congruence.
Qed.

Lemma eval_returns (w : Z) (node : ast_node) : eval w node <> OutOfFuel.
Proof.
  induction node as [t buf | t l IHl r IHr]; cbn [eval node_type].
  - destruct (t =? EX_LIT); [discriminate|].
    destruct ((t =? EX_CONCAT) || (t =? EX_REPEAT)); discriminate.
  - destruct (t =? EX_LIT); [discriminate|].
    destruct ((t =? EX_CONCAT) || (t =? EX_REPEAT)); [|discriminate].
    destruct (eval w l); cbn [bind]; try discriminate; try congruence.
    destruct (eval w r); cbn [bind]; try discriminate; congruence.
Qed.

Lemma main_parse_returns (hp : nat -> Z) (stdin : list byte) :
  main_parse hp stdin <> OutOfFuel.
Proof.
  unfold main_parse.
  pose proof (tokenizer_init_pending (mk_tz tok_unset tok_unset []) stdin)
    as Hm.
  destruct (tokenizer_init (mk_tz tok_unset tok_unset []) stdin)
    as [[rc tz0] errs].
  cbn [fst snd] in Hm.
  destruct (negb (rc =? 0)); [discriminate|].
  destruct (parser_settles (parse_fuel stdin)) as (_ & _ & _ & _ & Hp).
  specialize (Hp (mk_state tz0 hp 0 errs)).
  destruct (parse (parse_fuel stdin) (mk_state tz0 hp 0 errs));
    try discriminate.
  cbn [settles tz] in Hp. unfold parse_fuel in Hp. intros _. lia.
Qed.

(** Every run of the model ends, with an exit status or in a state C
    leaves undefined: the bound on the parser is never the reason a run
    stops. *)
Theorem main_returns (w : Z) (hp : nat -> Z) (stdin : list byte) :
  main w hp stdin <> Unfinished.
Proof.
  unfold main. pose proof (main_parse_returns hp stdin) as Hp.
  destruct (main_parse hp stdin) as [[p st]| | |]; cbn [run_of];
    try discriminate; try congruence.
  unfold main_print_eval, ast_print.
  pose proof (ast_print_inner_returns p 0) as Hq.
  destruct (ast_print_inner p 0); cbn [run_of]; try discriminate;
    try congruence.
  pose proof (eval_returns w p) as He.
  destruct (eval w p); cbn [run_of]; try discriminate; try congruence.
  cbv zeta. destruct (ast_free_cases p) as [-> | ->]; discriminate.
Qed.

(** ** Runs on particular inputs *)

(** C7: the inputs [(1.2] and [^3] end the run with a fatal diagnostic and
    the failure status, which is not 0, before anything is printed,
    whatever the blocks of the nodes contained. *)
Theorem malformed_input_fatal :
  forall (w : Z) (hp : nat -> Z),
    main w hp (bytes "(1.2")
    = Exited EXIT_FAILURE []
        (Some "Syntax error: expected close paren"%string)
    /\ main w hp (bytes "^3")
       = Exited EXIT_FAILURE []
           (Some "Syntax error: expected toplevel expression"%string)
    /\ (EXIT_FAILURE =? 0) = false.
Proof. intros w hp. repeat split. Qed.

(** C1 on the program: on the input [1] the node of the literal has the
    [type] its block contained.  With 3 there the tree prints as an
    unknown node and the evaluation is fatal; with [EX_REPEAT] there the
    printer follows the bytes of the buffer as if they were children. *)
Theorem literal_round_trip_untagged :
  parsed_tree (fun _ => 3) (bytes "1") = Ok (lit_node 3 (bytes "1"))
  /\ eval 64 (lit_node 3 (bytes "1"))
     = Fatal "Attempt to evaluate unknown node"
  /\ main 64 (fun _ => 3) (bytes "1")
     = Exited EXIT_FAILURE (bytes ("<Unknown node>" ++ nl))
         (Some "Attempt to evaluate unknown node"%string)
  /\ main 64 (fun _ => EX_REPEAT) (bytes "1") = Crashed.
Proof. repeat split. Qed.

(** C4 on the program: on the input [1^2^2] the parser nests the second
    repeat in the right operand of the first, the three leaves having the
    [type] their blocks contained; with [EX_LIT] in the three leaves the
    tree evaluates to 22 times the byte [1]; with 3 in the blocks the
    evaluation is fatal. *)
Theorem repeat_chain_untagged :
  (forall hp : nat -> Z,
      parsed_tree hp (bytes "1^2^2")
      = Ok (bin_node EX_REPEAT (lit_node (hp 0%nat) (bytes "1"))
              (bin_node EX_REPEAT (lit_node (hp 1%nat) (bytes "2"))
                 (lit_node (hp 2%nat) (bytes "2")))))
  /\ eval 64 (bin_node EX_REPEAT (lit_node EX_LIT (bytes "1"))
                (bin_node EX_REPEAT (lit_node EX_LIT (bytes "2"))
                   (lit_node EX_LIT (bytes "2"))))
     = Ok (repeat "1"%byte 22)
  /\ main 64 (fun _ => 3) (bytes "1^2^2")
     = Exited EXIT_FAILURE
         (bytes ("Binop: ^" ++ nl
                 ++ "|   Left:" ++ nl
                 ++ "|   |   <Unknown node>" ++ nl
                 ++ "|   Right:" ++ nl
                 ++ "|   |   Binop: ^" ++ nl
                 ++ "|   |   |   Left:" ++ nl
                 ++ "|   |   |   |   <Unknown node>" ++ nl
                 ++ "|   |   |   Right:" ++ nl
                 ++ "|   |   |   |   <Unknown node>" ++ nl))
         (Some "Attempt to evaluate unknown node"%string).
Proof. repeat split. Qed.




(** * Further properties *)

(** ** How the buffer operations compose *)





(** ** Reading a count *)

Lemma decimal_value_app (a b : list byte) :
  decimal_value (a ++ b)
  = decimal_value a * 10 ^ Z.of_nat (length b) + decimal_value b.
Proof.
  induction a as [|d a IH]; cbn [app decimal_value]; [lia|].
  rewrite IH, length_app, Nat2Z.inj_add, Z.pow_add_r by lia. ring.
Qed.

Lemma digit_range (c : byte) :
  is_digit_char c = true -> 0 <= int_of_char c - 48 <= 9.
Proof.
  unfold is_digit_char, isdigit. intros H. apply andb_prop in H.
  destruct H as [H1 H2]. apply Z.leb_le in H1, H2. lia.
Qed.

Lemma decimal_value_range (ds : list byte) :
  all_digits ds = true ->
  0 <= decimal_value ds < 10 ^ Z.of_nat (length ds).
Proof.
  induction ds as [|d ds IH]; intros H.
  - cbn. lia.
  - cbn [all_digits forallb] in H. apply andb_prop in H.
    destruct H as [Hd Hs]. pose proof (digit_range d Hd) as Hr.
    specialize (IH Hs). cbn [decimal_value length].
    rewrite Nat2Z.inj_succ, Z.pow_succ_r by lia.
    set (p := 10 ^ Z.of_nat (length ds)) in *. nia.
Qed.

(** X3: the count read from [a] followed by [b] is the count of [a] shifted
    by the digits of [b] plus the count of [b], in [unsigned long]; a
    leading zero changes nothing. *)
Theorem buf_asulong_concat (w : Z) (a b : buffer_t) :
  buf_asulong w (buf_concat a b)
  = wrap w (buf_asulong w a * 10 ^ Z.of_nat (len b) + buf_asulong w b)
  /\ buf_asulong w ("0"%byte :: b) = buf_asulong w b.
Proof.
  split.
  - rewrite buf_concat_app, !buf_asulong_decimal, decimal_value_app.
    unfold wrap, len.
    rewrite (Zplus_mod (decimal_value a mod 2 ^ w * _)).
    rewrite Zmult_mod_idemp_l, Zmod_mod, <- Zplus_mod. reflexivity.
  - rewrite !buf_asulong_decimal. cbn [decimal_value].
    change (int_of_char "0" - 48) with 0. f_equal; lia.
Qed.

(** X4: a count fits [unsigned long]; digits whose value is below [2^w] are
    read exactly, which at width 64 covers every string of at most 19
    digits. *)
Theorem buf_asulong_exact (w : Z) (buf : buffer_t) :
  0 <= w -> all_digits buf = true ->
  0 <= buf_asulong w buf < 2 ^ w
  /\ (decimal_value buf < 2 ^ w -> buf_asulong w buf = decimal_value buf)
  /\ (w = 64 -> (len buf <= 19)%nat ->
      buf_asulong w buf = decimal_value buf).
Proof.
  intros Hw Hd. rewrite buf_asulong_decimal.
  pose proof (decimal_value_range buf Hd) as Hr.
  assert (Hp : 0 < 2 ^ w) by (apply Z.pow_pos_nonneg; lia).
  split; [apply Z.mod_pos_bound; exact Hp|].
  split.
  - intros Hlt. apply Z.mod_small. lia.
  - intros -> Hlen. apply Z.mod_small. split; [lia|].
    apply Z.lt_le_trans with (10 ^ Z.of_nat (length buf)); [lia|].
    apply Z.le_trans with (10 ^ 19); [|vm_compute; discriminate].
    apply Z.pow_le_mono_r; unfold len in Hlen; lia.
Qed.

Lemma buf_asulong_exact_witness :
  0 <= 64 /\ all_digits (bytes "9999999999999999999") = true
  /\ buf_asulong 64 (bytes "9999999999999999999") = 9999999999999999999.
Proof.
  assert (Hw : 0 <= 64) by lia.
  assert (Hd : all_digits (bytes "9999999999999999999") = true)
    by reflexivity.
  split; [exact Hw|]. split; [exact Hd|].
  destruct (buf_asulong_exact 64 (bytes "9999999999999999999") Hw Hd)
    as (_ & _ & E).
  rewrite E; [reflexivity | reflexivity | cbn; lia].
Defined.

(** ** What [next_tok] reads *)

Lemma read_digits_spec (inp : list byte) (b : buffer_t) (cp : Z) :
  exists ds,
    fst (fst (read_digits inp b cp)) = b ++ ds
    /\ all_digits ds = true
    /\ inp = ds ++ snd (read_digits inp b cp)
    /\ stops_digits (snd (read_digits inp b cp)) = true.
Proof.
  revert b cp. induction inp as [|ch rest IH]; intros b cp;
    cbn [read_digits].
  - exists []. cbn. now rewrite app_nil_r.
  - destruct (isdigit (int_of_char ch)) eqn:Ed.
    + rewrite char_of_int_of_char.
      destruct (IH (b ++ [ch])
                  (if Z.of_nat (len (b ++ [ch])) >=? cp
                   then Z.shiftl cp 1 else cp)) as (ds & E1 & Hd & E2 & Hs).
      exists (ch :: ds). rewrite E1, <- app_assoc.
      split; [reflexivity|]. split.
      { cbn [all_digits forallb]. unfold is_digit_char at 1.
        now rewrite Ed. }
      split; [cbn [app]; now rewrite <- E2 | exact Hs].
    + exists []. cbn [fst snd app]. rewrite char_of_int_of_char, app_nil_r.
      repeat split. cbn [stops_digits]. unfold is_digit_char.
      now rewrite Ed.
Qed.

(** The growth of the buffer of a string token: the capacity stays above
    the length, is the initial one doubled some number of times, and is
    at most twice the length once past 8. *)
Lemma read_digits_cap (inp : list byte) (b : buffer_t) (cp : Z) :
  0 < cp -> Z.of_nat (len b) < cp ->
  cp <= Z.max 8 (2 * Z.of_nat (len b)) ->
  let r := read_digits inp b cp in
  Z.of_nat (len (fst (fst r))) < snd (fst r)
  /\ snd (fst r) <= Z.max 8 (2 * Z.of_nat (len (fst (fst r))))
  /\ exists k : nat, snd (fst r) = cp * 2 ^ Z.of_nat k.
Proof.
  revert b cp. induction inp as [|ch rest IH]; intros b cp Hpos Hlt Hmax;
    cbn [read_digits]; cbv zeta.
  - cbn [fst snd]. split; [exact Hlt|]. split; [exact Hmax|].
    exists 0%nat. cbn. lia.
  - destruct (isdigit (int_of_char ch)).
    2:{ cbn [fst snd]. split; [exact Hlt|]. split; [exact Hmax|].
        exists 0%nat. cbn. lia. }
    set (b' := b ++ [char_of_int (int_of_char ch)]).
    assert (Hlen : Z.of_nat (len b') = Z.of_nat (len b) + 1).
    { unfold b', len. rewrite length_app. cbn [length]. lia. }
    rewrite Z.shiftl_mul_pow2 by lia. change (2 ^ 1) with 2.
    destruct (Z.of_nat (len b') >=? cp) eqn:Ege.
    + apply Z.geb_le in Ege.
      destruct (IH b' (cp * 2)) as (H1 & H2 & k & H3); try lia.
      split; [exact H1|]. split; [exact H2|].
      exists (S k). rewrite H3, Nat2Z.inj_succ, Z.pow_succ_r by lia. ring.
    + assert (Z.of_nat (len b') < cp).
      { destruct (Z.geb_spec (Z.of_nat (len b')) cp); [discriminate|lia]. }
      destruct (IH b' cp) as (H1 & H2 & k & H3); try lia.
      split; [exact H1|]. split; [exact H2|]. exists k. exact H3.
Qed.

Lemma next_tok_spec (tok : tok_t) (inp : list byte) :
  let r := next_tok tok inp in
  exists junk,
    inp = junk ++ tok_payload (tok_of r) ++ rest_of r
    /\ forallb is_ignored_char junk = true
    /\ snd r = unrecognized junk
    /\ match tok_type (tok_of r) with
       | TOK_STR =>
           tok_buf (tok_of r) <> [] /\ all_digits (tok_buf (tok_of r)) = true
           /\ stops_digits (rest_of r) = true
           /\ Z.of_nat (len (tok_buf (tok_of r))) < tok_cap (tok_of r)
           /\ tok_cap (tok_of r)
              <= Z.max 8 (2 * Z.of_nat (len (tok_buf (tok_of r))))
           /\ exists k : nat, tok_cap (tok_of r) = 8 * 2 ^ Z.of_nat k
       | TOK_OP => is_op_char (int_of_char (tok_op (tok_of r))) = true
       | TOK_EOF => rest_of r = []
       end.
Proof.
  cbv zeta. induction inp as [|ch rest IH]; cbn [next_tok].
  { exists []. cbn. auto. }
  unfold next_tok_switch. cbv zeta.
  destruct (is_op_char (int_of_char ch)) eqn:Eop.
  { exists []. unfold tok_of, rest_of, tok_payload. cbn.
    rewrite char_of_int_of_char. auto. }
  destruct (isdigit (int_of_char ch)) eqn:Ed.
  { rewrite char_of_int_of_char.
    destruct (read_digits_spec rest [ch] 8) as (ds & E1 & Hd & E2 & Hs).
    destruct (read_digits_cap rest [ch] 8) as (C1 & C2 & k & C3);
      try (cbn; lia).
    destruct (read_digits rest [ch] 8) as [[b cp] rest'].
    cbn [fst snd] in *. subst b.
    exists []. unfold tok_of, rest_of, tok_payload. cbn [fst snd tok_type
      tok_buf tok_cap set_tok_buf set_tok_type app forallb unrecognized
      filter map].
    split; [now rewrite E2 at 1|]. split; [reflexivity|].
    split; [reflexivity|]. split; [discriminate|].
    split.
    { cbn [all_digits forallb]. unfold is_digit_char at 1.
      now rewrite Ed. }
    split; [exact Hs|]. split; [exact C1|]. split; [exact C2|].
    exists k. exact C3. }
  assert (Hign : is_ignored_char ch = true).
  { unfold is_ignored_char. now rewrite Eop, Ed. }
  destruct IH as (junk & E & Hj & He & Hm).
  destruct (is_skipped_char (int_of_char ch)) eqn:Es;
    destruct (next_tok tok rest) as [[[rc tok'] rest'] errs'];
    unfold tok_of, rest_of in *; cbn [fst snd] in *;
    exists (ch :: junk); cbn [app forallb]; rewrite Hign, <- E;
    (split; [reflexivity|]); (split; [exact Hj|]);
    (split; [|exact Hm]);
    unfold unrecognized; cbn [filter]; rewrite Es; cbn [negb map app];
    rewrite He; reflexivity.
Qed.

(** X5: [next_tok] on any stream: the input is the characters passed over,
    none of them an operator or a digit, then the bytes of the token
    returned, then the stream left; the error stream gets one line for
    each character passed over that is not among the silently skipped
    ones, in order. *)
Theorem next_tok_reads_prefix (tok : tok_t) (inp : list byte) :
  exists junk,
    inp = junk ++ tok_payload (tok_of (next_tok tok inp))
               ++ rest_of (next_tok tok inp)
    /\ forallb is_ignored_char junk = true
    /\ snd (next_tok tok inp) = unrecognized junk.
Proof.
  destruct (next_tok_spec tok inp) as (junk & E & Hj & He & _).
  exists junk. auto.
Qed.

(** X6: the token [next_tok] returns: a string token holds at least one byte,
    only digits, and is not followed by a digit; its capacity exceeds its
    length, is 8 doubled some number of times and at most twice the
    length once past 8.  An operator token holds one of the four operator
    characters.  The end token leaves the stream empty. *)
Theorem next_tok_token (tok : tok_t) (inp : list byte) :
  let t := tok_of (next_tok tok inp) in
  match tok_type t with
  | TOK_STR =>
      (1 <= len (tok_buf t))%nat /\ all_digits (tok_buf t) = true
      /\ stops_digits (rest_of (next_tok tok inp)) = true
      /\ Z.of_nat (len (tok_buf t)) < tok_cap t
      /\ tok_cap t <= Z.max 8 (2 * Z.of_nat (len (tok_buf t)))
      /\ exists k : nat, tok_cap t = 8 * 2 ^ Z.of_nat k
  | TOK_OP => is_op_char (int_of_char (tok_op t)) = true
  | TOK_EOF => rest_of (next_tok tok inp) = []
  end.
Proof.
  cbv zeta. destruct (next_tok_spec tok inp) as (junk & _ & _ & _ & H).
  destruct (tok_type (tok_of (next_tok tok inp))); try exact H.
  destruct H as (Hne & H). split; [|exact H].
  destruct (tok_buf (tok_of (next_tok tok inp))); [congruence|cbn; lia].
Qed.

(** ** The stream of tokens *)

Lemma next_tok_indep (tok tok' : tok_t) (inp : list byte) :
  view (tok_of (next_tok tok inp)) = view (tok_of (next_tok tok' inp))
  /\ rest_of (next_tok tok inp) = rest_of (next_tok tok' inp)
  /\ snd (next_tok tok inp) = snd (next_tok tok' inp).
Proof.
  induction inp as [|ch rest IH]; cbn [next_tok]; [now cbn|].
  unfold next_tok_switch. cbv zeta.
  destruct (is_op_char (int_of_char ch)); [now cbn|].
  destruct (isdigit (int_of_char ch)).
  { destruct (read_digits rest _ 8) as [[b cp] rest']. now cbn. }
  destruct IH as (E1 & E2 & E3).
  destruct (is_skipped_char (int_of_char ch));
    destruct (next_tok tok rest) as [[[rc t] r] e];
    destruct (next_tok tok' rest) as [[[rc' t'] r'] e'];
    unfold tok_of, rest_of in *; cbn [fst snd] in *; subst; auto.
Qed.

Lemma next_tok_rest_shorter (tok : tok_t) (inp : list byte) :
  view (tok_of (next_tok tok inp)) <> EndTok ->
  (length (rest_of (next_tok tok inp)) < length inp)%nat.
Proof.
  intros H. pose proof (next_tok_pending tok inp) as Hp.
  unfold token_count in Hp. unfold view in H.
  destruct (tok_type (tok_of (next_tok tok inp))); cbn in Hp;
    try lia; congruence.
Qed.

Lemma lex_fuel (f1 f2 : nat) (inp : list byte) :
  (length inp < f1)%nat -> (length inp < f2)%nat ->
  lex f1 inp = lex f2 inp.
Proof.
  revert f2 inp. induction f1 as [|f1 IH]; intros f2 inp H1 H2; [lia|].
  destruct f2 as [|f2]; [lia|]. cbn [lex]. cbv zeta.
  pose proof (next_tok_rest_shorter tok_unset inp) as Hs.
  destruct (view (tok_of (next_tok tok_unset inp))) eqn:Ev;
    try reflexivity;
    (f_equal; apply IH;
     assert (length (rest_of (next_tok tok_unset inp)) < length inp)%nat
       by (apply Hs; discriminate); lia).
Qed.

Lemma tokens_unfold (inp : list byte) :
  tokens inp
  = match view (tok_of (next_tok tok_unset inp)) with
    | EndTok => []
    | t => t :: tokens (rest_of (next_tok tok_unset inp))
    end.
Proof.
  unfold tokens at 1. cbn [lex]. cbv zeta.
  pose proof (next_tok_rest_shorter tok_unset inp) as Hs.
  destruct (view (tok_of (next_tok tok_unset inp))) eqn:Ev;
    try reflexivity;
    (f_equal; unfold tokens; apply lex_fuel;
     assert (length (rest_of (next_tok tok_unset inp)) < length inp)%nat
       by (apply Hs; discriminate); lia).
Qed.

Lemma next_tok_end_rest (tok : tok_t) (inp : list byte) :
  view (tok_of (next_tok tok inp)) = EndTok ->
  rest_of (next_tok tok inp) = [].
Proof.
  intros H. destruct (next_tok_spec tok inp) as (junk & _ & _ & _ & Hm).
  unfold view in H.
  destruct (tok_type (tok_of (next_tok tok inp))); try discriminate H.
  exact Hm.
Qed.

(** The token [next_tok] returns and the tokens of what it leaves, from
    the tokens of the stream. *)
Lemma next_tok_tokens (tok : tok_t) (inp : list byte) :
  view (tok_of (next_tok tok inp)) = hd EndTok (tokens inp)
  /\ tokens (rest_of (next_tok tok inp)) = tl (tokens inp).
Proof.
  destruct (next_tok_indep tok tok_unset inp) as (E1 & E2 & _).
  rewrite E1, E2, (tokens_unfold inp).
  pose proof (next_tok_end_rest tok_unset inp) as He.
  destruct (view (tok_of (next_tok tok_unset inp))); cbn [hd tl];
    try (split; reflexivity).
  rewrite He by reflexivity. split; reflexivity.
Qed.

(** ** The cursor over the stream of tokens *)

Lemma hd_skipn {A : Type} (d : A) (n : nat) (l : list A) :
  hd d (skipn n l) = nth n l d.
Proof.
  revert l. induction n as [|n IH]; intros [|x l]; cbn; auto.
Qed.

Lemma tl_skipn {A : Type} (n : nat) (l : list A) :
  tl (skipn n l) = skipn (S n) l.
Proof.
  revert l. induction n as [|n IH]; intros [|x l]; cbn [skipn tl]; auto.
Qed.

Lemma tokenizer_init_view (tz0 : tokenizer_t) (inp : list byte) :
  cursor_view (snd (fst (tokenizer_init tz0 inp)))
  = hd EndTok (tokens inp) :: hd EndTok (tl (tokens inp))
      :: tl (tl (tokens inp)).
Proof.
  unfold tokenizer_init.
  destruct (next_tok_tokens (tz_cur tz0) inp) as [V1 T1].
  pose proof (next_tok_rc (tz_cur tz0) inp) as R1.
  destruct (next_tok (tz_cur tz0) inp) as [[[rc1 c] in1] e1].
  unfold tok_of, rest_of, tok_rc in *. cbn [fst snd] in *. subst rc1.
  cbn [Z.eqb negb].
  destruct (next_tok_tokens (tz_next tz0) in1) as [V2 T2].
  pose proof (next_tok_rc (tz_next tz0) in1) as R2.
  destruct (next_tok (tz_next tz0) in1) as [[[rc2 n] in2] e2].
  unfold tok_of, rest_of, tok_rc in *. cbn [fst snd] in *. subst rc2.
  cbn [Z.eqb negb fst snd]. unfold cursor_view. cbn [tz_cur tz_next tz_in].
  now rewrite V1, V2, T2, T1.
Qed.

Lemma tokenizer_consume_view (t : tokenizer_t) :
  cursor_view (snd (fst (tokenizer_consume t))) = advance (cursor_view t).
Proof.
  unfold tokenizer_consume. cbn [tz_cur tz_next tz_in].
  destruct (next_tok_tokens (tz_next t) (tz_in t)) as [V T].
  destruct (next_tok (tz_next t) (tz_in t)) as [[[rc n] in'] e].
  unfold tok_of, rest_of in *. cbn [fst snd] in *.
  unfold cursor_view, advance.
  destruct (negb (rc =? 0)); cbn [fst snd tz_cur tz_next tz_in];
    now rewrite V, T.
Qed.

(** X7: the cursor is a window of two tokens on the stream of tokens of the
    input: after [tokenizer_init] and [k] calls of [tokenizer_consume] the
    current token is the token of rank [k], the next one the token of
    rank [k + 1], the end token standing for every rank past the last,
    and the stream holds the tokens from rank [k + 2] on. *)
Theorem cursor_window (tz0 : tokenizer_t) (inp : list byte) (k : nat) :
  let t := consume_n k (snd (fst (tokenizer_init tz0 inp))) in
  view (tokenizer_peek t) = tok_at inp k
  /\ view (tokenizer_peeknext t) = tok_at inp (S k)
  /\ tokens (tz_in t) = skipn (S (S k)) (tokens inp).
Proof.
  cbv zeta.
  assert (H : forall t j,
             cursor_view t
             = tok_at inp j :: tok_at inp (S j)
                 :: skipn (S (S j)) (tokens inp) ->
             cursor_view (consume_n k t)
             = tok_at inp (k + j) :: tok_at inp (S (k + j))
                 :: skipn (S (S (k + j))) (tokens inp)).
  { induction k as [|k IH]; intros t j Hv; [exact Hv|].
    cbn [consume_n]. rewrite (IH _ (S j)).
    - now rewrite Nat.add_succ_r.
    - rewrite tokenizer_consume_view, Hv. cbn [advance].
      now rewrite hd_skipn, tl_skipn. }
  specialize (H (snd (fst (tokenizer_init tz0 inp))) 0%nat).
  rewrite Nat.add_0_r in H.
  assert (Hi : cursor_view (snd (fst (tokenizer_init tz0 inp)))
               = tok_at inp 0 :: tok_at inp 1 :: skipn 2 (tokens inp)).
  { rewrite tokenizer_init_view. unfold tok_at.
    destruct (tokens inp) as [|a [|b l]]; reflexivity. }
  specialize (H Hi). unfold cursor_view in H.
  unfold tokenizer_peek, tokenizer_peeknext.
  injection H as H1 H2 H3. auto.
Qed.

(** ** The parser reads the input through its tokens only *)


Lemma consume_tz (st : state) :
  tz (snd (consume st)) = snd (fst (tokenizer_consume (tz st))).
Proof.
  unfold consume.
  destruct (tokenizer_consume (tz st)) as [[rc t'] errs]. reflexivity.
Qed.







(** ** A larger bound changes no result *)

Lemma stable_bind {A B : Type} (m m' : outcome A) (k k' : A -> outcome B) :
  stable m m' -> (forall a, stable (k a) (k' a)) ->
  stable (bind m k) (bind m' k').
Proof.
  intros [-> | ->] Hk; [left; reflexivity|].
  destruct m as [a| | |]; cbn [bind]; [apply Hk | right | right | left];
    reflexivity.
Qed.

Lemma stable_refl {A : Type} (o : outcome A) : stable o o.
Proof. right. reflexivity. Qed.

Lemma parse_fuel_step (fuel : nat) :
  (forall st, stable (parse_toplevel fuel st) (parse_toplevel (S fuel) st))
  /\ (forall st, stable (parse_repeat fuel st) (parse_repeat (S fuel) st))
  /\ (forall l st, stable (parse_concat_loop fuel l st)
                     (parse_concat_loop (S fuel) l st))
  /\ (forall st, stable (parse_concat fuel st) (parse_concat (S fuel) st))
  /\ (forall st, stable (parse fuel st) (parse (S fuel) st)).
Proof.
  induction fuel as [|fuel (IHt & IHr & IHl & IHc & IHp)].
  { repeat split; intros; left; reflexivity. }
  split; [|split; [|split; [|split]]].
  - intros st. rewrite !parse_toplevel_eq. cbv zeta.
    destruct (tok_type (tz_cur (tz st))); try apply stable_refl.
    destruct (Byte.eqb (tok_op (tz_cur (tz st))) "(");
      [|apply stable_refl].
    apply stable_bind; [apply IHp|]. intros [node st2]. apply stable_refl.
  - intros st. rewrite !parse_repeat_eq.
    apply stable_bind; [apply IHt|]. intros [l st1].
    destruct (is_op (tz_cur (tz st1)) "^"); [|apply stable_refl].
    cbv zeta. apply stable_bind; [|intros [r st3]; apply stable_refl].
    destruct (is_op (tz_next (tz (snd (consume st1)))) "^");
      [apply IHr | apply IHt].
  - intros l st. rewrite !parse_concat_loop_eq.
    destruct (is_op (tz_cur (tz st)) "."); [|apply stable_refl].
    apply stable_bind; [apply IHr|]. intros [r st2].
    destruct (new_binop st2 EX_CONCAT l r) as [l' st3]. apply IHl.
  - intros st. cbn [parse_concat].
    apply stable_bind; [apply IHr|]. intros [l st1]. apply IHl.
  - intros st. cbn [parse]. apply IHc.
Qed.

Lemma parse_fuel_le (f g : nat) (st : state) :
  (f <= g)%nat -> parse f st <> OutOfFuel -> parse g st = parse f st.
Proof.
  intros Hle Hne. induction Hle as [|g Hle IH]; [reflexivity|].
  destruct (parse_fuel_step g) as (_ & _ & _ & _ & Hp).
  destruct (Hp st) as [E | E]; [|now rewrite E].
  rewrite IH in E. contradiction.
Qed.

Lemma parse_enough (f : nat) (st : state) :
  (4 * pending (tz st) + 4 <= f)%nat -> parse f st <> OutOfFuel.
Proof.
  intros Hf. destruct (parser_settles f) as (_ & _ & _ & _ & Hp).
  specialize (Hp st). intros E. rewrite E in Hp. cbn [settles] in Hp.
  contradiction.
Qed.

(** [main_parse] with any bound past the one it uses. *)
Lemma main_parse_fuel (hp : nat -> Z) (stdin : list byte) (g : nat) :
  (parse_fuel stdin <= g)%nat ->
  main_parse hp stdin
  = parse g (mk_state
               (snd (fst (tokenizer_init (mk_tz tok_unset tok_unset [])
                            stdin)))
               hp 0
               (snd (tokenizer_init (mk_tz tok_unset tok_unset []) stdin))).
Proof.
  intros Hg. unfold main_parse.
  pose proof (tokenizer_init_pending (mk_tz tok_unset tok_unset []) stdin)
    as Hm.
  pose proof (tokenizer_init_rc (mk_tz tok_unset tok_unset []) stdin) as Hr.
  destruct (tokenizer_init (mk_tz tok_unset tok_unset []) stdin)
    as [[rc tz0] errs].
  cbn [fst snd] in *. subst rc. cbn [Z.eqb negb].
  symmetry. apply parse_fuel_le; [exact Hg|].
  apply parse_enough. cbn [tz]. unfold parse_fuel. lia.
Qed.




(** ** Characters between tokens *)



Lemma tokens_op (ch : byte) (inp : list byte) :
  is_op_char (int_of_char ch) = true ->
  tokens (ch :: inp) = OpTok ch :: tokens inp.
Proof.
  intros H. rewrite (tokens_unfold (ch :: inp)).
  cbn [next_tok]. unfold next_tok_switch. cbv zeta. rewrite H.
  unfold tok_of, rest_of, view. cbn. now rewrite char_of_int_of_char.
Qed.

Lemma tokens_digits (c : byte) (ds rest : list byte) :
  is_digit_char c = true -> all_digits ds = true ->
  stops_digits rest = true ->
  tokens (c :: ds ++ rest) = StrTok (c :: ds) :: tokens rest.
Proof.
  intros Hc Hd Hs. rewrite (tokens_unfold (c :: ds ++ rest)).
  pose proof (next_tok_digits tok_unset c ds rest Hc Hd Hs) as H.
  cbv zeta in H. destruct H as (_ & Hty & Hbuf & Hrest & _).
  unfold view. now rewrite Hty, Hbuf, Hrest.
Qed.









(** ** The trees the parser builds *)

Lemma next_tok_ok (tok : tok_t) (inp : list byte) :
  tok_ok (tok_of (next_tok tok inp)) = true.
Proof.
  destruct (next_tok_spec tok inp) as (junk & _ & _ & _ & H).
  unfold tok_ok.
  destruct (tok_type (tok_of (next_tok tok inp))); try reflexivity.
  destruct H as (Hne & Hd & _). rewrite Hd.
  destruct (tok_buf (tok_of (next_tok tok inp))); [congruence|reflexivity].
Qed.

Lemma tokenizer_init_ok (tz0 : tokenizer_t) (inp : list byte) :
  cursor_ok (snd (fst (tokenizer_init tz0 inp))) = true.
Proof.
  unfold tokenizer_init.
  pose proof (next_tok_ok (tz_cur tz0) inp) as H1.
  pose proof (next_tok_rc (tz_cur tz0) inp) as R1.
  destruct (next_tok (tz_cur tz0) inp) as [[[rc1 c] in1] e1].
  pose proof (next_tok_ok (tz_next tz0) in1) as H2.
  pose proof (next_tok_rc (tz_next tz0) in1) as R2.
  destruct (next_tok (tz_next tz0) in1) as [[[rc2 n] in2] e2].
  unfold tok_of, tok_rc in *. cbn [fst snd] in *. subst rc1 rc2.
  cbn [Z.eqb negb fst snd]. unfold cursor_ok. cbn [tz_cur tz_next].
  now rewrite H1, H2.
Qed.

Lemma consume_ok_cursor (st : state) :
  cursor_ok (tz st) = true -> cursor_ok (tz (snd (consume st))) = true.
Proof.
  intros H. unfold cursor_ok in *. apply andb_prop in H.
  destruct H as [_ Hn]. rewrite consume_tz.
  unfold tokenizer_consume. cbn [tz_cur tz_next tz_in].
  pose proof (next_tok_ok (tz_next (tz st)) (tz_in (tz st))) as H.
  destruct (next_tok (tz_next (tz st)) (tz_in (tz st)))
    as [[[rc n] in'] e].
  unfold tok_of in H. cbn [fst snd] in H.
  destruct (negb (rc =? 0)); cbn [fst snd tz_cur tz_next];
    now rewrite Hn, H.
Qed.

Lemma built_bind (hp : nat -> Z) (k0 k1 : nat)
  (o : outcome (ast_node * state))
  (k : ast_node * state -> outcome (ast_node * state)) :
  built hp k1 o ->
  (forall p st,
      well_formed p = true -> alloc_tags hp k1 p = true ->
      cursor_ok (tz st) = true -> heap st = hp ->
      nalloc st = (k1 + node_count p)%nat ->
      built hp k0 (k (p, st))) ->
  built hp k0 (bind o k).
Proof.
  intros Ho Hk. destruct o as [[p st]| | |]; cbn [bind built] in *; auto.
  destruct Ho as (H1 & H2 & H3 & H4 & H5). auto.
Qed.

Lemma parser_builds (fuel : nat) :
  (forall st, cursor_ok (tz st) = true ->
      built (heap st) (nalloc st) (parse_toplevel fuel st))
  /\ (forall st, cursor_ok (tz st) = true ->
         built (heap st) (nalloc st) (parse_repeat fuel st))
  /\ (forall l st k0,
         cursor_ok (tz st) = true -> well_formed l = true ->
         alloc_tags (heap st) k0 l = true ->
         nalloc st = (k0 + node_count l)%nat ->
         built (heap st) k0 (parse_concat_loop fuel l st))
  /\ (forall st, cursor_ok (tz st) = true ->
         built (heap st) (nalloc st) (parse_concat fuel st))
  /\ (forall st, cursor_ok (tz st) = true ->
         built (heap st) (nalloc st) (parse fuel st)).
Proof.
  induction fuel as [|fuel (IHt & IHr & IHl & IHc & IHp)].
  { repeat split; intros; exact I. }
  split; [|split; [|split; [|split]]].
  - (* parse_toplevel *)
    intros st Hok. rewrite parse_toplevel_eq. cbv zeta.
    pose proof (consume_ok_cursor st Hok) as Hok1.
    destruct (consume_heap st) as [Hh Hn].
    destruct (tok_type (tz_cur (tz st))) eqn:Ety; try exact I.
    + unfold new_lit, malloc_node. rewrite ast_new_lit_eq.
      cbn [built well_formed alloc_tags node_count tz heap nalloc].
      unfold cursor_ok, tok_ok in Hok. rewrite Ety in Hok.
      apply andb_prop in Hok. destruct Hok as [Hcur _].
      rewrite Hcur, Hh, Hn, Z.eqb_refl. repeat split; auto; lia.
    + destruct (Byte.eqb (tok_op (tz_cur (tz st))) "("); [|exact I].
      rewrite <- Hh, <- Hn.
      eapply built_bind; [apply IHp, Hok1|].
      intros p st2 W A C H N. cbn iota beta.
      destruct (is_op (tz_cur (tz st2)) ")"); [|exact I].
      destruct (consume_heap st2) as [Hh2 Hn2].
      cbn [built]. rewrite Hh2, Hn2.
      auto using consume_ok_cursor.
  - (* parse_repeat *)
    intros st Hok. rewrite parse_repeat_eq.
    eapply built_bind; [apply IHt, Hok|].
    intros l st1 W A C H N. cbn iota beta.
    destruct (is_op (tz_cur (tz st1)) "^"); [|cbn [built]; auto].
    cbv zeta. pose proof (consume_ok_cursor st1 C) as C2.
    destruct (consume_heap st1) as [Hh Hn].
    apply (built_bind _ _ (nalloc st + node_count l)).
    + rewrite <- H, <- Hh, <- N, <- Hn.
      destruct (is_op (tz_next (tz (snd (consume st1)))) "^");
        [apply IHr | apply IHt]; exact C2.
    + intros r st3 W3 A3 C3 H3 N3. cbn iota beta.
      unfold new_binop, malloc_node.
      cbn [built well_formed alloc_tags node_count tz heap nalloc
             ast_new_binop].
      rewrite W, W3, A, A3, H3, N3. repeat split; auto; lia.
  - (* parse_concat_loop *)
    intros l st k0 Hok W A N. rewrite parse_concat_loop_eq.
    destruct (is_op (tz_cur (tz st)) "."); [|cbn [built]; auto].
    pose proof (consume_ok_cursor st Hok) as C1.
    destruct (consume_heap st) as [Hh Hn].
    apply (built_bind _ _ (k0 + node_count l)).
    + rewrite <- Hh, <- N, <- Hn. apply IHr, C1.
    + intros r st2 W2 A2 C2 H2 N2. cbn iota beta.
      unfold new_binop, malloc_node, ast_new_binop.
      rewrite <- H2.
      apply (IHl (bin_node EX_CONCAT l r)
               (mk_state (tz st2) (heap st2) (S (nalloc st2)) (stderr st2))
               k0);
        cbn [tz heap nalloc well_formed alloc_tags node_count];
        rewrite ?H2, ?W, ?W2, ?A, ?A2; auto; lia.
  - (* parse_concat *)
    intros st Hok. cbn [parse_concat].
    eapply built_bind; [apply IHr, Hok|].
    intros l st1 W A C H N. cbn iota beta.
    rewrite <- H. apply IHl; auto. now rewrite H.
  - (* parse *)
    intros st Hok. cbn [parse]. apply IHc, Hok.
Qed.

Lemma parsed_tree_wf (hp : nat -> Z) (stdin : list byte)
  (p : ast_node) (st : state) :
  main_parse hp stdin = Ok (p, st) ->
  well_formed p = true /\ alloc_tags hp 0 p = true
  /\ nalloc st = node_count p.
Proof.
  unfold main_parse.
  pose proof (tokenizer_init_ok (mk_tz tok_unset tok_unset []) stdin) as Hok.
  destruct (tokenizer_init (mk_tz tok_unset tok_unset []) stdin)
    as [[rc tz0] errs].
  cbn [fst snd] in Hok.
  destruct (negb (rc =? 0)); [discriminate|].
  destruct (parser_builds (parse_fuel stdin)) as (_ & _ & _ & _ & Hp).
  specialize (Hp (mk_state tz0 hp 0 errs) Hok). cbn [heap nalloc] in Hp.
  intros E. rewrite E in Hp. cbn [built] in Hp.
  destruct Hp as (W & A & _ & _ & N). auto.
Qed.


(** X10: the tree [parse] returns in [main]: its operator nodes carry the tag
    of their operator, its literals hold at least one byte and only
    digits, the nodes were allocated one block each, the operands of a
    node before the node, from the first block on, each literal carrying
    what its block contained; parentheses cost no block. *)
Theorem parsed_tree_built (hp : nat -> Z) (stdin : list byte)
  (p : ast_node) (st : state) :
  main_parse hp stdin = Ok (p, st) ->
  well_formed p = true /\ alloc_tags hp 0 p = true
  /\ nalloc st = node_count p.
Proof. apply parsed_tree_wf. Qed.

Lemma parsed_tree_built_witness :
  let hp := fun k : nat => Z.of_nat k + 7 in
  exists p st,
    main_parse hp (bytes "(1.23)^4") = Ok (p, st)
    /\ p = bin_node EX_REPEAT
             (bin_node EX_CONCAT (lit_node 7 (bytes "1"))
                (lit_node 8 (bytes "23")))
             (lit_node 10 (bytes "4"))
    /\ well_formed p = true /\ alloc_tags hp 0 p = true
    /\ nalloc st = node_count p.
Proof.
  intros hp.
  assert (E : exists p st,
             main_parse hp (bytes "(1.23)^4") = Ok (p, st)
             /\ p = bin_node EX_REPEAT
                      (bin_node EX_CONCAT (lit_node 7 (bytes "1"))
                         (lit_node 8 (bytes "23")))
                      (lit_node 10 (bytes "4"))).
  { vm_compute. eexists. eexists. split; reflexivity. }
  destruct E as (p & st & E & Ep). exists p, st.
  split; [exact E|]. split; [exact Ep|].
  exact (parsed_tree_built hp _ p st E).
Defined.

(** ** Runs that cannot go wrong *)










Lemma crashes_bind {A B : Type} (m : outcome A) (k : A -> outcome B) :
  crashes m = false -> (forall a, crashes (k a) = false) ->
  crashes (bind m k) = false.
Proof. intros Hm Hk. destruct m; cbn in *; auto. Qed.

(** The parser reads no field it has not written. *)
Lemma parser_defined (fuel : nat) :
  (forall st, crashes (parse_toplevel fuel st) = false)
  /\ (forall st, crashes (parse_repeat fuel st) = false)
  /\ (forall l st, crashes (parse_concat_loop fuel l st) = false)
  /\ (forall st, crashes (parse_concat fuel st) = false)
  /\ (forall st, crashes (parse fuel st) = false).
Proof.
  induction fuel as [|fuel (IHt & IHr & IHl & IHc & IHp)].
  { repeat split; intros; reflexivity. }
  split; [|split; [|split; [|split]]].
  - intros st. rewrite parse_toplevel_eq. cbv zeta.
    destruct (tok_type (tz_cur (tz st))); try reflexivity.
    destruct (Byte.eqb (tok_op (tz_cur (tz st))) "("); [|reflexivity].
    apply crashes_bind; [apply IHp|].
    intros [node st2]. destruct (is_op (tz_cur (tz st2)) ")"); reflexivity.
  - intros st. rewrite parse_repeat_eq.
    apply crashes_bind; [apply IHt|].
    intros [l st1]. destruct (is_op (tz_cur (tz st1)) "^"); [|reflexivity].
    cbv zeta. apply crashes_bind.
    + destruct (is_op (tz_next (tz (snd (consume st1)))) "^");
        [apply IHr | apply IHt].
    + intros [r st3]. reflexivity.
  - intros l st. rewrite parse_concat_loop_eq.
    destruct (is_op (tz_cur (tz st)) "."); [|reflexivity].
    apply crashes_bind; [apply IHr|].
    intros [r st2]. destruct (new_binop st2 EX_CONCAT l r) as [l' st3].
    apply IHl.
  - intros st. cbn [parse_concat].
    apply crashes_bind; [apply IHr|]. intros [l st1]. apply IHl.
  - intros st. cbn [parse]. apply IHc.
Qed.

Lemma main_parse_cases (hp : nat -> Z) (stdin : list byte) :
  match main_parse hp stdin with
  | Ok _ => True
  | Fatal msg => In msg grammar_errors
  | Undefined | OutOfFuel => False
  end.
Proof.
  pose proof (main_parse_returns hp stdin) as Hr. unfold main_parse in *.
  pose proof (tokenizer_init_rc (mk_tz tok_unset tok_unset []) stdin) as R.
  destruct (tokenizer_init (mk_tz tok_unset tok_unset []) stdin)
    as [[rc tz0] errs].
  cbn [fst snd] in R. subst rc. cbn [Z.eqb negb] in *.
  destruct (parser_fatal_within (parse_fuel stdin)) as (_ & _ & _ & _ & H).
  destruct (parser_defined (parse_fuel stdin)) as (_ & _ & _ & _ & D).
  specialize (H (mk_state tz0 hp 0 errs)).
  specialize (D (mk_state tz0 hp 0 errs)).
  destruct (parse (parse_fuel stdin) (mk_state tz0 hp 0 errs));
    try exact I; try discriminate D; try congruence.
  now apply fatal_within_cases in H.
Qed.


(** ** Where a run can leave defined behaviour *)

Lemma ast_print_inner_cases (node : ast_node) (lev : Z) :
  (exists out, ast_print_inner node lev = Ok out)
  \/ ast_print_inner node lev = Undefined.
Proof.
  pose proof (ast_print_inner_not_fatal node lev) as Hf.
  pose proof (ast_print_inner_returns node lev) as Hr.
  destruct (ast_print_inner node lev) as [out|msg| |]; eauto.
  - destruct (Hf msg eq_refl).
  - destruct (Hr eq_refl).
Qed.



(** ** From a tree to a program and back *)

Lemma stable_le {A : Type} (F : nat -> outcome A) :
  (forall n, stable (F n) (F (S n))) ->
  forall f g, (f <= g)%nat -> F f <> OutOfFuel -> F g = F f.
Proof.
  intros Hs f g Hle Hne. induction Hle as [|g Hle IH]; [reflexivity|].
  destruct (Hs g) as [E | E]; [|now rewrite E].
  rewrite IH in E. contradiction.
Qed.

Lemma parse_ok_le (f g : nat) (st : state) (x : ast_node * state) :
  parse f st = Ok x -> (f <= g)%nat -> parse g st = Ok x.
Proof.
  intros E Hle. rewrite <- E.
  apply (stable_le (fun n => parse n st)); auto.
  - intros n. apply parse_fuel_step.
  - rewrite E. discriminate.
Qed.

Lemma parse_toplevel_ok_le (f g : nat) (st : state)
  (x : ast_node * state) :
  parse_toplevel f st = Ok x -> (f <= g)%nat -> parse_toplevel g st = Ok x.
Proof.
  intros E Hle. rewrite <- E.
  apply (stable_le (fun n => parse_toplevel n st)); auto.
  - intros n. apply parse_fuel_step.
  - rewrite E. discriminate.
Qed.

Lemma advance_pad (x : token) (l : list token) :
  advance (pad (x :: l)) = pad l.
Proof. destruct l as [|a [|b l]]; reflexivity. Qed.

Lemma consume_pad (st : state) (x : token) (l : list token) :
  cursor_view (tz st) = pad (x :: l) ->
  cursor_view (tz (snd (consume st))) = pad l.
Proof.
  intros H. now rewrite consume_tz, tokenizer_consume_view, H, advance_pad.
Qed.

Lemma pad_cur (st : state) (x : token) (l : list token) :
  cursor_view (tz st) = pad (x :: l) -> view (tz_cur (tz st)) = x.
Proof.
  unfold cursor_view. destruct l as [|a l]; cbn [pad]; intros H;
    now injection H.
Qed.

Lemma pad_next (st : state) (x : token) (l : list token) :
  cursor_view (tz st) = pad (x :: l) ->
  view (tz_next (tz st)) = hd EndTok l.
Proof.
  unfold cursor_view. destruct l as [|a l]; cbn [pad hd]; intros H;
    now injection H.
Qed.

Lemma is_op_view (t : tok_t) (c : byte) :
  is_op t c = match view t with
              | OpTok c' => Byte.eqb c' c
              | _ => false
              end.
Proof. unfold is_op, view. destruct (tok_type t); reflexivity. Qed.

Lemma view_str (t : tok_t) (b : buffer_t) :
  view t = StrTok b -> tok_type t = TOK_STR /\ tok_buf t = b.
Proof.
  unfold view. destruct (tok_type t); intros H; try discriminate H.
  now injection H.
Qed.

Lemma view_op (t : tok_t) (c : byte) :
  view t = OpTok c -> tok_type t = TOK_OP /\ tok_op t = c.
Proof.
  unfold view. destruct (tok_type t); intros H; try discriminate H.
  now injection H.
Qed.

Lemma toks_head (p : ast_node) (rest : list token) :
  match hd EndTok (toks p ++ rest) with
  | OpTok c => Byte.eqb c "^"
  | _ => false
  end = false.
Proof. destruct p; reflexivity. Qed.

Lemma hd_pad (rest : list token) : hd EndTok (pad rest) = hd EndTok rest.
Proof. destruct rest as [|a [|b rest]]; reflexivity. Qed.

Lemma closes_head (rest : list token) (c : byte) :
  closes rest = true -> Byte.eqb ")" c = false ->
  match hd EndTok rest with
  | OpTok c' => Byte.eqb c' c
  | _ => false
  end = false.
Proof.
  intros H Hc. destruct rest as [|[b|c'|] rest]; cbn [closes] in H;
    try discriminate H.
  - reflexivity.
  - apply Byte.byte_dec_bl in H. subst c'. exact Hc.
Qed.

Lemma pad_cur_hd (st : state) (rest : list token) :
  cursor_view (tz st) = pad rest ->
  view (tz_cur (tz st)) = hd EndTok rest.
Proof.
  unfold cursor_view. destruct rest as [|a [|b rest]]; cbn [pad hd];
    intros H; now injection H.
Qed.

Lemma parse_toks_lit (t : Z) (b : buffer_t) (st : state)
  (rest : list token) (g : nat) :
  alloc_tags (heap st) (nalloc st) (lit_node t b) = true ->
  closes rest = true ->
  cursor_view (tz st) = pad (toks (lit_node t b) ++ rest) ->
  lands (lit_node t b) st rest (parse (4 + g) st).
Proof.
  intros A C V. cbn [toks app] in V.
  destruct (view_str _ _ (pad_cur _ _ _ V)) as [Hty Hbuf].
  pose proof (pad_next _ _ _ V) as Hn.
  rewrite parse_literal; try exact Hty;
    try (rewrite is_op_view, Hn; now apply closes_head).
  destruct (consume_heap st) as [Hh Hc].
  unfold new_lit, malloc_node. rewrite ast_new_lit_eq, Hh, Hc, Hbuf.
  cbn [alloc_tags] in A. apply Z.eqb_eq in A. subst t.
  eexists. split; [reflexivity|]. cbn [tz heap nalloc node_count].
  split; [now apply (consume_pad _ _ _ V)|]. split; [reflexivity|]. lia.
Qed.

Lemma toplevel_paren (p : ast_node) (st : state) (rest : list token) :
  (forall st rest,
      alloc_tags (heap st) (nalloc st) p = true -> closes rest = true ->
      cursor_view (tz st) = pad (toks p ++ rest) ->
      exists f, forall g, (f <= g)%nat -> lands p st rest (parse g st)) ->
  alloc_tags (heap st) (nalloc st) p = true ->
  cursor_view (tz st) = pad (OpTok "(" :: toks p ++ OpTok ")" :: rest) ->
  exists f, forall g, (f <= g)%nat ->
                      lands p st rest (parse_toplevel g st).
Proof.
  intros Hq A V.
  destruct (view_op _ _ (pad_cur _ _ _ V)) as [Hty Hop].
  pose proof (consume_pad _ _ _ V) as V1.
  destruct (consume_heap st) as [Hh Hn].
  destruct (Hq (snd (consume st)) (OpTok ")" :: rest)) as [f Hf];
    [now rewrite Hh, Hn | reflexivity | exact V1 |].
  exists (S f). intros g Hg. destruct g as [|g]; [lia|].
  destruct (Hf g) as (st2 & E & V2 & H2 & N2); [lia|].
  rewrite parse_toplevel_eq. cbv zeta. rewrite Hty, Hop.
  change (Byte.eqb "(" "(") with true. cbv iota. rewrite E. cbn [bind].
  rewrite is_op_view, (pad_cur _ _ _ V2).
  change (Byte.eqb ")" ")") with true. cbv iota.
  destruct (consume_heap st2) as [Hh2 Hn2].
  eexists. split; [reflexivity|].
  split; [exact (consume_pad _ _ _ V2)|].
  rewrite Hh2, Hn2, H2, N2, Hh, Hn. auto.
Qed.

Lemma toks_bin_app (t : Z) (l r : ast_node) (rest : list token) :
  toks (bin_node t l r) ++ rest
  = OpTok "(" :: toks l
      ++ OpTok ")" :: OpTok (op_char t) :: OpTok "(" :: toks r
      ++ OpTok ")" :: rest.
Proof.
  cbn [toks app]. rewrite <- app_assoc. cbn [app].
  now rewrite <- app_assoc.
Qed.

Lemma parse_toks (p : ast_node) :
  well_formed p = true ->
  forall st rest,
    alloc_tags (heap st) (nalloc st) p = true -> closes rest = true ->
    cursor_view (tz st) = pad (toks p ++ rest) ->
    exists f, forall g, (f <= g)%nat -> lands p st rest (parse g st).
Proof.
  induction p as [t b | t l IHl r IHr]; intros W st rest A C V.
  { exists 4%nat. intros g Hg. replace g with (4 + (g - 4))%nat by lia.
    now apply parse_toks_lit. }
  cbn [well_formed] in W. apply andb_prop in W. destruct W as [W Wr].
  apply andb_prop in W. destruct W as [Wt Wl].
  cbn [alloc_tags] in A. apply andb_prop in A. destruct A as [Al Ar].
  rewrite toks_bin_app in V.
  destruct (toplevel_paren l st _ (IHl Wl) Al V) as [fl Hl].
  destruct (Hl fl (le_n _)) as (sa & Ea & Va & Ha & Na).
  pose proof (consume_pad _ _ _ Va) as Vb.
  destruct (consume_heap sa) as [Hhb Hnb].
  destruct (toplevel_paren r (snd (consume sa)) rest (IHr Wr)) as [fr Hr];
    [now rewrite Hhb, Hnb, Ha, Na | exact Vb |].
  destruct (Hr fr (le_n _)) as (sc & Ec & Vc & Hc & Nc).
  exists (4 + Nat.max fl fr)%nat. intros g Hg.
  destruct g as [|[|[|[|g4]]]]; try lia.
  assert (Ea3 : parse_toplevel (S g4) st = Ok (l, sa))
    by (apply (parse_toplevel_ok_le fl); [exact Ea | lia]).
  assert (Ec3 : parse_toplevel (S g4) (snd (consume sa)) = Ok (r, sc))
    by (apply (parse_toplevel_ok_le fr); [exact Ec | lia]).
  assert (Ec4 : parse_toplevel g4 (snd (consume sa)) = Ok (r, sc))
    by (apply (parse_toplevel_ok_le fr); [exact Ec | lia]).
  pose proof (pad_cur _ _ _ Va) as Ca.
  pose proof (pad_cur_hd _ _ Vc) as Cc.
  assert (Hdot : is_op (tz_cur (tz sc)) "." = false)
    by (rewrite is_op_view, Cc; now apply closes_head).
  assert (Hhat : is_op (tz_cur (tz sc)) "^" = false)
    by (rewrite is_op_view, Cc; now apply closes_head).
  cbn [parse parse_concat]. rewrite parse_repeat_eq, Ea3. cbn [bind].
  rewrite is_op_view, Ca.
  apply orb_prop in Wt. destruct Wt as [Et | Et]; apply Z.eqb_eq in Et;
    subst t.
  - (* concatenation *)
    change (Byte.eqb (op_char EX_CONCAT) "^") with false. cbv iota.
    cbn [bind]. rewrite parse_concat_loop_eq, is_op_view, Ca.
    change (Byte.eqb (op_char EX_CONCAT) ".") with true. cbv iota.
    rewrite parse_repeat_eq, Ec4. cbn [bind]. rewrite Hhat. cbn [bind].
    unfold new_binop, malloc_node, ast_new_binop. cbv iota beta.
    rewrite parse_concat_loop_eq. cbn [tz]. rewrite Hdot.
    eexists. split; [reflexivity|]. cbn [tz heap nalloc node_count].
    split; [exact Vc|]. split; [congruence|]. lia.
  - (* repetition *)
    change (Byte.eqb (op_char EX_REPEAT) "^") with true. cbv iota zeta.
    rewrite is_op_view, (pad_next _ _ _ Vb), toks_head, Ec3. cbn [bind].
    unfold new_binop, malloc_node, ast_new_binop. cbv iota beta.
    rewrite parse_concat_loop_eq. cbn [tz]. rewrite Hdot.
    eexists. split; [reflexivity|]. cbn [tz heap nalloc node_count].
    split; [exact Vc|]. split; [congruence|]. lia.
Qed.

Lemma is_op_char_op (t : Z) : is_op_char (int_of_char (op_char t)) = true.
Proof. unfold op_char. destruct (t =? EX_CONCAT); reflexivity. Qed.

Lemma tokens_unparse (p : ast_node) (bs : list byte) :
  well_formed p = true -> stops_digits bs = true ->
  tokens (unparse p ++ bs) = toks p ++ tokens bs.
Proof.
  revert bs. induction p as [t b | t l IHl r IHr]; intros bs W S;
    cbn [well_formed unparse toks] in *.
  - apply andb_prop in W. destruct W as [Wn Wd].
    destruct b as [|c ds]; [discriminate Wn|].
    cbn [all_digits forallb] in Wd. apply andb_prop in Wd.
    destruct Wd as [Hc Hd]. cbn [app]. now apply tokens_digits.
  - apply andb_prop in W. destruct W as [W Wr].
    apply andb_prop in W. destruct W as [_ Wl].
    cbn [app]. rewrite <- app_assoc. cbn [app]. rewrite <- app_assoc.
    cbn [app].
    rewrite tokens_op, (IHl _ Wl), tokens_op, tokens_op, tokens_op,
      (IHr _ Wr), tokens_op;
      try reflexivity; try apply is_op_char_op; try exact S.
    rewrite <- app_assoc. cbn [app]. now rewrite <- app_assoc.
Qed.

Lemma pad_hd_tl (l : list token) :
  hd EndTok l :: hd EndTok (tl l) :: tl (tl l) = pad l.
Proof. destruct l as [|a [|b l]]; reflexivity. Qed.

Lemma parse_unparse (hp : nat -> Z) (p : ast_node) :
  well_formed p = true -> alloc_tags hp 0 p = true ->
  exists st, main_parse hp (unparse p) = Ok (p, st).
Proof.
  intros W A.
  pose proof (tokens_unparse p [] W eq_refl) as T.
  rewrite app_nil_r in T. change (tokens []) with (@nil token) in T.
  set (st0 := mk_state
                (snd (fst (tokenizer_init (mk_tz tok_unset tok_unset [])
                             (unparse p))))
                hp 0
                (snd (tokenizer_init (mk_tz tok_unset tok_unset [])
                        (unparse p)))).
  destruct (parse_toks p W st0 []) as [f Hf]; [exact A | reflexivity | |].
  { unfold st0. cbn [tz]. now rewrite tokenizer_init_view, pad_hd_tl, T. }
  destruct (Hf (Nat.max f (parse_fuel (unparse p)))) as (st' & E & _);
    [lia|].
  exists st'.
  rewrite (main_parse_fuel hp (unparse p)
             (Nat.max f (parse_fuel (unparse p)))) by lia.
  exact E.
Qed.

(** X14: from a tree to a program and back: for a tree whose operator nodes
    carry the tag of their operator, whose literals are non-empty digit
    strings and carry what the blocks hold in the order of allocation,
    the parser returns the tree itself from the program that writes its
    literals as they are, both operands of every operator in
    parentheses; so the run on that program prints and evaluates that
    tree. *)
Theorem unparse_round_trip (w : Z) (hp : nat -> Z) (p : ast_node) :
  well_formed p = true -> alloc_tags hp 0 p = true ->
  parsed_tree hp (unparse p) = Ok p
  /\ main w hp (unparse p) = main_print_eval w p.
Proof.
  intros W A. destruct (parse_unparse hp p W A) as [st E].
  unfold parsed_tree, tree_of, main. rewrite E. split; reflexivity.
Qed.

Lemma unparse_round_trip_witness :
  let p := bin_node EX_CONCAT (lit_node EX_LIT (bytes "1"))
             (bin_node EX_REPEAT (lit_node EX_LIT (bytes "2"))
                (lit_node EX_LIT (bytes "3"))) in
  unparse p = bytes "(1).((2)^(3))"
  /\ parsed_tree (fun _ => EX_LIT) (unparse p) = Ok p
  /\ main 64 (fun _ => EX_LIT) (unparse p) = main_print_eval 64 p.
Proof.
  intros p. split; [reflexivity|].
  apply (unparse_round_trip 64 (fun _ => EX_LIT) p); reflexivity.
Defined.

(** ** Programs without parentheses *)

Lemma parse_repeat_ok_le (f g : nat) (st : state) (x : ast_node * state) :
  parse_repeat f st = Ok x -> (f <= g)%nat -> parse_repeat g st = Ok x.
Proof.
  intros E Hle. rewrite <- E.
  apply (stable_le (fun n => parse_repeat n st)); auto.
  - intros n. apply parse_fuel_step.
  - rewrite E. discriminate.
Qed.

Lemma parse_concat_loop_ok_le (f g : nat) (l : ast_node) (st : state)
  (x : ast_node * state) :
  parse_concat_loop f l st = Ok x -> (f <= g)%nat ->
  parse_concat_loop g l st = Ok x.
Proof.
  intros E Hle. rewrite <- E.
  apply (stable_le (fun n => parse_concat_loop n l st)); auto.
  - intros n. apply parse_fuel_step.
  - rewrite E. discriminate.
Qed.

Lemma node_count_rtree (hp : nat -> Z) (k : nat) (b : buffer_t)
  (bs : list buffer_t) :
  node_count (rtree hp k b bs) = (1 + 2 * length bs)%nat.
Proof.
  revert k b. induction bs as [|b' bs IH]; intros k b; [reflexivity|].
  cbn [rtree node_count length]. rewrite IH. lia.
Qed.

Lemma toplevel_lit (b : buffer_t) (st : state) (rest : list token)
  (g : nat) :
  cursor_view (tz st) = pad (StrTok b :: rest) ->
  lands (lit_node (heap st (nalloc st)) b) st rest
    (parse_toplevel (S g) st).
Proof.
  intros V.
  destruct (view_str _ _ (pad_cur _ _ _ V)) as [Hty Hbuf].
  destruct (consume_heap st) as [Hh Hn].
  rewrite parse_toplevel_eq. cbv zeta. rewrite Hty, Hbuf.
  unfold new_lit, malloc_node. rewrite ast_new_lit_eq, Hh, Hn.
  eexists. split; [reflexivity|]. cbn [tz heap nalloc node_count].
  split; [exact (consume_pad _ _ _ V)|]. split; [reflexivity|]. lia.
Qed.

(** A chain of literals joined by [^] and followed by a token other than
    [^]: [parse_repeat] nests it to the right. *)
Lemma parse_repeat_chain (bs : list buffer_t) :
  forall (b : buffer_t) (st : state) (rest : list token),
    match hd EndTok rest with
    | OpTok c => Byte.eqb c "^"
    | _ => false
    end = false ->
    cursor_view (tz st) = pad (rtoks (b :: bs) ++ rest) ->
    exists f, forall g, (f <= g)%nat ->
      lands (rtree (heap st) (nalloc st) b bs) st rest (parse_repeat g st).
Proof.
  induction bs as [|b' bs IH]; intros b st rest Hr V.
  - (* one literal *)
    cbn [rtoks app] in V.
    exists 2%nat. intros g Hg. destruct g as [|[|g]]; try lia.
    destruct (toplevel_lit b st rest g V) as (sa & Ea & Va & Ha & Na).
    rewrite parse_repeat_eq, Ea. cbn [bind].
    rewrite is_op_view, (pad_cur_hd _ _ Va), Hr.
    exists sa. cbn [rtree]. auto.
  - (* a literal, [^], and the rest of the chain *)
    change (rtoks (b :: b' :: bs) ++ rest)
      with (StrTok b :: OpTok "^" :: (rtoks (b' :: bs) ++ rest)) in V.
    destruct (toplevel_lit b st _ 0 V) as (sa & Ea & Va & Ha & Na).
    pose proof (consume_pad _ _ _ Va) as Vb.
    destruct (consume_heap sa) as [Hhb Hnb].
    cbn [node_count] in Na. rewrite Nat.add_1_r in Na.
    assert (Hop : is_op (tz_cur (tz sa)) "^" = true)
      by now rewrite is_op_view, (pad_cur _ _ _ Va).
    destruct bs as [|b'' bs].
    + (* the chain ends after [b']: the lookahead sees [rest] *)
      cbn [rtoks app] in Vb.
      exists 2%nat. intros g Hg. destruct g as [|[|g]]; try lia.
      destruct (toplevel_lit b' (snd (consume sa)) rest g Vb)
        as (sc & Ec & Vc & Hc & Nc).
      rewrite parse_repeat_eq.
      rewrite (parse_toplevel_ok_le 1 (S g) st _ Ea) by lia.
      cbn [bind]. rewrite Hop. cbv zeta.
      rewrite is_op_view, (pad_next _ _ _ Vb), Hr, Ec. cbn [bind].
      unfold new_binop, malloc_node, ast_new_binop.
      eexists. split.
      { cbn [rtree]. now rewrite Hhb, Hnb, Ha, Na. }
      cbn [tz heap nalloc rtree node_count].
      split; [exact Vc|]. split; [congruence|].
      cbn [node_count] in Nc. lia.
    + (* the chain goes on: the lookahead sees [^] *)
      destruct (IH b' (snd (consume sa)) rest Hr Vb) as [f Hf].
      destruct (Hf f (le_n _)) as (sc & Ec & Vc & Hc & Nc).
      exists (S (S f)). intros g Hg. destruct g as [|[|g]]; try lia.
      rewrite parse_repeat_eq.
      rewrite (parse_toplevel_ok_le 1 (S g) st _ Ea) by lia.
      cbn [bind]. rewrite Hop. cbv zeta.
      rewrite is_op_view, (pad_next _ _ _ Vb). cbn [rtoks app hd].
      change (Byte.eqb "^" "^") with true. cbv iota.
      rewrite (parse_repeat_ok_le f (S g) _ _ Ec) by lia. cbn [bind].
      unfold new_binop, malloc_node, ast_new_binop.
      eexists. split.
      { change (rtree (heap st) (nalloc st) b (b' :: b'' :: bs))
          with (bin_node EX_REPEAT (lit_node (heap st (nalloc st)) b)
                  (rtree (heap st) (S (nalloc st)) b' (b'' :: bs))).
        now rewrite Hhb, Hnb, Ha, Na. }
      cbn [tz heap nalloc].
      split; [exact Vc|]. split; [congruence|].
      rewrite Nc, Hnb, Na.
      change (node_count (rtree (heap st) (nalloc st) b (b' :: b'' :: bs)))
        with (S (1 + node_count
                       (rtree (heap st) (S (nalloc st)) b' (b'' :: bs)))).
      rewrite !node_count_rtree. lia.
Qed.

Lemma ctoks_head (groups : list (buffer_t * list buffer_t))
  (rest : list token) :
  closes rest = true ->
  match hd EndTok (ctoks groups ++ rest) with
  | OpTok c => Byte.eqb c "^"
  | _ => false
  end = false.
Proof.
  intros C. destruct groups as [|[b bs] groups]; [|reflexivity].
  now apply closes_head.
Qed.

(** Groups each led by a [.] and followed by a closing parenthesis or
    nothing: the loop of [parse_concat] nests them to the left. *)
Lemma parse_concat_chain (groups : list (buffer_t * list buffer_t)) :
  forall (acc : ast_node) (st : state) (rest : list token) (k0 : nat),
    nalloc st = (k0 + node_count acc)%nat -> closes rest = true ->
    cursor_view (tz st) = pad (ctoks groups ++ rest) ->
    exists f, forall g, (f <= g)%nat ->
      exists st',
        parse_concat_loop g acc st
        = Ok (ctree (heap st) k0 acc groups, st')
        /\ cursor_view (tz st') = pad rest /\ heap st' = heap st.
Proof.
  induction groups as [|[b bs] groups IH]; intros acc st rest k0 N C V.
  - cbn [ctoks app] in V. exists 1%nat. intros g Hg.
    destruct g as [|g]; [lia|].
    rewrite parse_concat_loop_eq, is_op_view, (pad_cur_hd _ _ V).
    rewrite closes_head by (exact C || reflexivity).
    exists st. auto.
  - cbn [ctoks app] in V. rewrite <- app_assoc in V.
    assert (Hop : is_op (tz_cur (tz st)) "." = true)
      by now rewrite is_op_view, (pad_cur _ _ _ V).
    pose proof (consume_pad _ _ _ V) as V1.
    destruct (consume_heap st) as [Hh Hn].
    destruct (parse_repeat_chain bs b (snd (consume st))
                (ctoks groups ++ rest) (ctoks_head _ _ C) V1) as [f1 Hf1].
    destruct (Hf1 f1 (le_n _)) as (s2 & E2 & V2 & H2 & N2).
    set (r := rtree (heap (snd (consume st))) (nalloc (snd (consume st)))
                b bs) in *.
    set (s3 := mk_state (tz s2) (heap s2) (S (nalloc s2)) (stderr s2)).
    destruct (IH (bin_node EX_CONCAT acc r) s3 rest k0) as [f2 Hf2];
      [cbn [nalloc s3 node_count]; lia | exact C | exact V2 |].
    destruct (Hf2 f2 (le_n _)) as (s4 & E4 & V4 & H4).
    exists (S (Nat.max f1 f2)). intros g Hg. destruct g as [|g]; [lia|].
    rewrite parse_concat_loop_eq, Hop.
    rewrite (parse_repeat_ok_le f1 g _ _ E2) by lia. cbn [bind].
    unfold new_binop, malloc_node, ast_new_binop. cbv iota beta.
    fold s3. rewrite (parse_concat_loop_ok_le f2 g _ _ _ E4) by lia.
    exists s4. split.
    + cbn [ctree]. f_equal. f_equal.
      unfold r. cbn [heap s3]. now rewrite H2, Hh, Hn, N.
    + split; [exact V4|]. rewrite H4. cbn [heap s3]. congruence.
Qed.

Lemma parse_paren_free (b : buffer_t) (bs : list buffer_t)
  (groups : list (buffer_t * list buffer_t)) (st : state) :
  cursor_view (tz st) = pad (rtoks (b :: bs) ++ ctoks groups) ->
  exists f, forall g, (f <= g)%nat ->
    exists st',
      parse g st
      = Ok (ctree (heap st) (nalloc st)
              (rtree (heap st) (nalloc st) b bs) groups, st').
Proof.
  intros V.
  assert (V' : cursor_view (tz st)
               = pad (rtoks (b :: bs) ++ (ctoks groups ++ [])))
    by now rewrite app_nil_r.
  destruct (parse_repeat_chain bs b st (ctoks groups ++ [])
              (ctoks_head groups [] eq_refl) V') as [f1 Hf1].
  destruct (Hf1 f1 (le_n _)) as (s1 & E1 & V1 & H1 & N1).
  destruct (parse_concat_chain groups
              (rtree (heap st) (nalloc st) b bs) s1 [] (nalloc st))
    as [f2 Hf2]; [exact N1 | reflexivity | exact V1 |].
  destruct (Hf2 f2 (le_n _)) as (s2 & E2 & _).
  exists (2 + Nat.max f1 f2)%nat. intros g Hg.
  destruct g as [|[|g]]; try lia.
  cbn [parse parse_concat].
  rewrite (parse_repeat_ok_le f1 g _ _ E1) by lia. cbn [bind].
  rewrite (parse_concat_loop_ok_le f2 g _ _ _ E2) by lia.
  exists s2. now rewrite H1.
Qed.

Lemma is_literal_cons (b : buffer_t) :
  is_literal b = true ->
  exists c ds, b = c :: ds /\ is_digit_char c = true
               /\ all_digits ds = true.
Proof.
  unfold is_literal. intros H. apply andb_prop in H. destruct H as [Hn Hd].
  destruct b as [|c ds]; [discriminate Hn|].
  cbn [all_digits forallb] in Hd. apply andb_prop in Hd.
  destruct Hd as [Hc Hds]. eauto.
Qed.

Lemma tokens_rtext (bs : list buffer_t) :
  forall (b : buffer_t) (tail : list byte),
    is_literal b = true -> forallb is_literal bs = true ->
    stops_digits tail = true ->
    tokens (rtext (b :: bs) ++ tail) = rtoks (b :: bs) ++ tokens tail.
Proof.
  induction bs as [|b' bs IH]; intros b tail Hb Hbs S;
    destruct (is_literal_cons b Hb) as (c & ds & -> & Hc & Hd).
  - cbn [rtext rtoks app]. now apply tokens_digits.
  - cbn [forallb] in Hbs. apply andb_prop in Hbs. destruct Hbs as [Hb' Hbs].
    change (rtext ((c :: ds) :: b' :: bs) ++ tail)
      with (((c :: ds) ++ "^"%byte :: rtext (b' :: bs)) ++ tail).
    rewrite <- app_assoc. cbn [app].
    rewrite tokens_digits, tokens_op, IH; auto.
Qed.

Lemma tokens_ctext (groups : list (buffer_t * list buffer_t)) :
  forallb group_ok groups = true ->
  tokens (ctext groups) = ctoks groups.
Proof.
  induction groups as [|[b bs] groups IH]; intros H; [reflexivity|].
  cbn [forallb] in H. apply andb_prop in H. destruct H as [Hg H].
  unfold group_ok in Hg. cbn [fst snd] in Hg. apply andb_prop in Hg.
  destruct Hg as [Hb Hbs].
  cbn [ctext ctoks]. rewrite tokens_op by reflexivity.
  rewrite tokens_rtext, IH; auto.
  destruct groups as [|[b' bs'] groups']; reflexivity.
Qed.

Lemma parse_groups (hp : nat -> Z) (b : buffer_t)
  (bs : list buffer_t) (groups : list (buffer_t * list buffer_t)) :
  group_ok (b, bs) = true -> forallb group_ok groups = true ->
  parsed_tree hp (rtext (b :: bs) ++ ctext groups)
  = Ok (ctree hp 0 (rtree hp 0 b bs) groups).
Proof.
  intros Hg Hgs. unfold group_ok in Hg. cbn [fst snd] in Hg.
  apply andb_prop in Hg. destruct Hg as [Hb Hbs].
  set (inp := rtext (b :: bs) ++ ctext groups).
  assert (T : tokens inp = rtoks (b :: bs) ++ ctoks groups).
  { unfold inp. rewrite tokens_rtext, tokens_ctext; auto.
    destruct groups as [|[b' bs'] groups']; reflexivity. }
  set (st0 := mk_state
                (snd (fst (tokenizer_init (mk_tz tok_unset tok_unset [])
                             inp)))
                hp 0
                (snd (tokenizer_init (mk_tz tok_unset tok_unset []) inp))).
  destruct (parse_paren_free b bs groups st0) as [f Hf].
  { unfold st0. cbn [tz]. now rewrite tokenizer_init_view, pad_hd_tl, T. }
  destruct (Hf (Nat.max f (parse_fuel inp))) as (st' & E); [lia|].
  unfold parsed_tree, tree_of.
  rewrite (main_parse_fuel hp inp (Nat.max f (parse_fuel inp))) by lia.
  fold st0. rewrite E. reflexivity.
Qed.


(** X15: programs without parentheses: groups of literals joined by [^], the
    groups joined by [.].  The parser nests each group to the right and
    the groups to the left: repetition binds tighter than concatenation
    and associates to the right, concatenation to the left.  The nodes
    are allocated in the order of the operands, a node after its
    operands. *)
Theorem paren_free_program (hp : nat -> Z) (b : buffer_t)
  (bs : list buffer_t) (groups : list (buffer_t * list buffer_t)) :
  group_ok (b, bs) = true -> forallb group_ok groups = true ->
  parsed_tree hp (rtext (b :: bs) ++ ctext groups)
  = Ok (ctree hp 0 (rtree hp 0 b bs) groups).
Proof. apply parse_groups. Qed.

Lemma paren_free_program_witness :
  let hp := fun _ : nat => EX_LIT in
  rtext [bytes "1"; bytes "2"; bytes "2"]
    ++ ctext [(bytes "3", []); (bytes "4", [bytes "5"])]
  = bytes "1^2^2.3.4^5"
  /\ parsed_tree hp (bytes "1^2^2.3.4^5")
     = Ok (bin_node EX_CONCAT
             (bin_node EX_CONCAT
                (bin_node EX_REPEAT (lit_node 0 (bytes "1"))
                   (bin_node EX_REPEAT (lit_node 0 (bytes "2"))
                      (lit_node 0 (bytes "2"))))
                (lit_node 0 (bytes "3")))
             (bin_node EX_REPEAT (lit_node 0 (bytes "4"))
                (lit_node 0 (bytes "5")))).
Proof.
  intros hp. split; [reflexivity|].
  exact (paren_free_program hp (bytes "1") [bytes "2"; bytes "2"]
           [(bytes "3", []); (bytes "4", [bytes "5"])] eq_refl eq_refl).
Defined.

(** ** A parenthesised right operand ends a chain *)




(** ** The value of a program of literals joined by dots *)

Lemma eval_ctree_singles (w : Z) (k0 : nat) (bs : list buffer_t) :
  forall (acc : ast_node) (va : buffer_t),
    eval w acc = Ok va ->
    eval w (ctree (fun _ => EX_LIT) k0 acc (map (fun x => (x, [])) bs))
    = Ok (va ++ concat bs).
Proof.
  induction bs as [|x bs IH]; intros acc va Ha.
  - cbn [map ctree concat]. now rewrite app_nil_r.
  - cbn [map ctree rtree concat]. rewrite app_assoc. apply IH.
    rewrite eval_concat_eq, Ha. cbn [bind eval node_type].
    change (EX_LIT =? EX_LIT) with true. cbv iota. cbn [bind].
    now rewrite buf_dup_eq.
Qed.

(** X17: literals joined by dots: with [EX_LIT] in the blocks handed out, the
    tree the parser returns evaluates to the literals one after the
    other. *)
Theorem dotted_program_value (w : Z) (b : buffer_t) (bs : list buffer_t) :
  is_literal b = true -> forallb is_literal bs = true ->
  exists p,
    parsed_tree (fun _ => EX_LIT)
      (b ++ ctext (map (fun x => (x, [])) bs)) = Ok p
    /\ eval w p = Ok (b ++ concat bs).
Proof.
  intros Hb Hbs. eexists. split.
  - apply (parse_groups (fun _ => EX_LIT) b []).
    + unfold group_ok. cbn [fst snd forallb]. now rewrite Hb.
    + clear Hb. induction bs as [|x bs IH]; [reflexivity|].
      cbn [forallb] in Hbs. apply andb_prop in Hbs.
      destruct Hbs as [Hx Hbs]. cbn [map forallb]. unfold group_ok at 1.
      cbn [fst snd forallb]. rewrite Hx. cbn [andb]. now apply IH.
  - apply eval_ctree_singles. cbn [rtree eval node_type].
    change (EX_LIT =? EX_LIT) with true. cbv iota. now rewrite buf_dup_eq.
Qed.

Lemma dotted_program_value_witness :
  exists p,
    parsed_tree (fun _ => EX_LIT) (bytes "12.34.5") = Ok p
    /\ eval 64 p = Ok (bytes "12345").
Proof.
  exact (dotted_program_value 64 (bytes "12") [bytes "34"; bytes "5"]
           eq_refl eq_refl).
Defined.

(** ** How a run ends *)

(** X1: every run ends, in one of four ways: with status 0; with the failure
    status and one of the two diagnostics of the parser, nothing having
    been printed; with the failure status and the diagnostic of the
    evaluator, after the tree was printed; or by leaving defined
    behaviour.  The bound on the depth of the parser is never the reason
    a run stops. *)
Theorem main_outcomes (w : Z) (hp : nat -> Z) (stdin : list byte) :
  match main w hp stdin with
  | Exited status out None => status = 0
  | Exited status out (Some msg) =>
      status = EXIT_FAILURE
      /\ (In msg grammar_errors /\ out = []
          \/ msg = "Attempt to evaluate unknown node"%string
             /\ exists t, parsed_tree hp stdin = Ok t
                          /\ ast_print t = Ok out)
  | Crashed => True
  | Unfinished => False
  end.
Proof.
  unfold main, parsed_tree, tree_of.
  pose proof (main_parse_cases hp stdin) as Hc.
  destruct (main_parse hp stdin) as [[p st]|msg| |]; try contradiction;
    cbn [run_of bind]; [|auto].
  unfold main_print_eval, ast_print.
  destruct (ast_print_inner_cases p 0) as [[out E] | E]; rewrite E;
    cbn [run_of]; [|exact I].
  pose proof (eval_fatal_within w p) as He.
  destruct (eval w p) as [v|msg| |] eqn:Ev; cbn [run_of].
  - cbv zeta. rewrite (ast_free_printed p 0 out E). reflexivity.
  - apply fatal_within_cases in He. destruct He as [<- | []].
    split; [reflexivity|]. right. split; [reflexivity|]. eauto.
  - exact I.
  - now apply eval_returns in Ev.
Qed.
